(** * Global attribution mapping: the [GAM] driver of [gam/gam.py]

    A shallow embedding of the [GAM] class: the numeric helper [normalize],
    the membership summary [get_subpopulation_sizes], the explanation builder
    [_get_explanations], the clustering step [_cluster], the pipeline
    [generate] and the cluster-count search [get_optimal_clustering].

    Conventions of the embedding.
    - A numpy [float64] is a value of [float]: an exact rational, an infinity
      or NaN.  Arithmetic on finite values is exact (rounding and overflow
      are idealised away); the special values are produced where IEEE
      arithmetic produces them, in particular by division by zero.  What
      depends on rounding or overflow, the sum of a normalised row, is
      stated on the binary64 format instead ([normalize64]).
    - The instance [self] is a record that every method threads through a
      state-and-exception monad; a raised exception leaves the fields that
      were already assigned as they are.  Next to the instance the state
      keeps the list of calls made to the clusterer, so that statements can
      speak of what was passed to it and when.
    - Code imported from outside [gam.py] (the csv readers, [KMedoids],
      [pairwise_distances], [silhouette_score]) is a parameter of the
      development; the two distance functions are named function objects. *)

From Stdlib Require Import ZArith QArith Qabs List String Lia.
From Stdlib Require Import SpecFloat.
From stdpp Require Import gmap strings list sorting.
From stdpp Require Import pretty.

Local Open Scope Z_scope.

(** ** Numbers: numpy float64, idealised *)

Inductive float : Type :=
  | Fin (q : Q)
  | Inf (negative : bool)
  | NaN.

Definition fabs (x : float) : float :=
  match x with
  | Fin q => Fin (Qabs q)
  | Inf _ => Inf false
  | NaN => NaN
  end.

Definition fadd (x y : float) : float :=
  match x, y with
  | Fin a, Fin b => Fin (a + b)
  | Fin _, Inf s => Inf s
  | Inf s, Fin _ => Inf s
  | Inf s, Inf s' => if Bool.eqb s s' then Inf s else NaN
  | _, _ => NaN
  end.

Definition Qnegative (q : Q) : bool :=
  match Qcompare q 0 with Lt => true | _ => false end.

(** True division as numpy performs it: [x / 0] is an infinity for nonzero
    [x] and NaN for [0 / 0]; no exception is raised. *)
Definition fdiv (x y : float) : float :=
  match x, y with
  | Fin a, Fin b =>
      if Qeq_bool b 0
      then (if Qeq_bool a 0 then NaN else Inf (Qnegative a))
      else Fin (a / b)
  | Fin _, Inf _ => Fin 0
  | Inf s, Fin b => Inf (xorb s (Qnegative b))
  | Inf _, Inf _ => NaN
  | _, _ => NaN
  end.

(** [x >= 0] on floats; every comparison with NaN is false. *)
Definition fnonneg (x : float) : bool :=
  match x with
  | Fin q => negb (Qnegative q)
  | Inf s => negb s
  | NaN => false
  end.

Definition is_nan (x : float) : bool :=
  match x with NaN => true | _ => false end.

Definition is_finite (x : float) : bool :=
  match x with Fin _ => true | _ => false end.

Definition matrix : Type := list (list float).

(** ** numpy operations used by [normalize] *)

Definition np_abs (a : matrix) : matrix := map (map fabs) a.

(** [a.sum(axis=1, keepdims=True)]: one total per row, kept as a column. *)
Definition row_sum (row : list float) : float := fold_left fadd row (Fin 0).

(** Sums of rationals, as the finite part of [row_sum] computes them. *)
Definition Qsum (qs : list Q) (acc : Q) : Q := fold_left Qplus qs acc.

Definition np_sum_axis1 (a : matrix) : list float := map row_sum a.

(** [a / total] with [total] of shape (n, 1): each row is divided by its
    own total. *)
Definition np_divide (a : matrix) (total : list float) : matrix :=
  zip_with (fun row t => map (fun x => fdiv x t) row) a total.

(** [GAM.normalize] *)
Definition normalize (attributions : matrix) : matrix :=
  let total := np_sum_axis1 (np_abs attributions) in
  np_divide (np_abs attributions) total.

(** The row-wise reading of [normalize]. *)
Definition abs_total (row : list float) : float := row_sum (map fabs row).

Definition normalize_row (row : list float) : list float :=
  map (fun x => fdiv (fabs x) (abs_total row)) row.

(** A row has a nonzero sum of absolute values: the sum is a number and it is
    not zero. *)
Definition nonzero_total (row : list float) : bool :=
  match abs_total row with
  | Fin t => negb (Qeq_bool t 0)
  | _ => false
  end.

Definition zero_total (row : list float) : bool :=
  match abs_total row with
  | Fin t => Qeq_bool t 0
  | _ => false
  end.

(** The number [n / d], for writing matrices down. *)
Definition F (n d : Z) : float := Fin (Qmake n (Z.to_pos d)).

Definition example_attributions : matrix :=
  [[F 2 1; F 8 1]; [F 1 1; F 9 1]; [F 8 1; F 2 1]; [F 9 1; F 1 1]].

Definition example_normalized : matrix :=
  [[F 2 10; F 8 10]; [F 1 10; F 9 10]; [F 8 10; F 2 10]; [F 9 10; F 1 10]].

(** A matrix with an all-zero row. *)
Definition zero_row_attributions : matrix := [[F 0 1; F 0 1]].

(** ** [normalize] on IEEE binary64

    Where a statement turns on rounding or overflow it is made on the
    binary64 format itself: [spec_float] with 53 bits of precision and
    exponents up to 1024, whose operations round to nearest, ties to even.
    A [float64] that numpy holds is a [spec_float] for which
    [valid_binary 53 1024] holds. *)

Definition float64 : Type := spec_float.

Definition f64_abs (x : float64) : float64 := SFabs x.

Definition f64_add (x y : float64) : float64 := SFadd 53 1024 x y.

Definition f64_div (x y : float64) : float64 := SFdiv 53 1024 x y.

(** [x == y] on floats *)
Definition f64_eqb (x y : float64) : bool := SFeqb x y.

(** The [float64] of the number [m * 2^e] (rounded, if it needs more than
    53 bits): [f64 1 0] is 1.0 and [f64 1 1023] is 2.0 ** 1023. *)
Definition f64 (m e : Z) : float64 := binary_normalize 53 1024 m e false.

(** A float that is a number: neither an infinity nor NaN. *)
Definition is_number64 (x : float64) : bool :=
  match x with
  | S754_zero _ | S754_finite _ _ _ => true
  | _ => false
  end.

Definition matrix64 : Type := list (list float64).

Definition np_abs64 (a : matrix64) : matrix64 := map (map f64_abs) a.

(** Adding the entries of a row one after the other, starting from 0.0. *)
Definition sum_in_order (row : list float64) : float64 :=
  fold_left f64_add row (S754_zero false).

Definition np_divide64 (a : matrix64) (total : list float64) : matrix64 :=
  zip_with (fun row t => map (fun x => f64_div x t) row) a total.

Section Normalize64.

(** [row.sum()] as numpy computes it.  numpy adds the entries of a row of
    fewer than 8 entries one after the other ([adds_short_rows_in_order]
    below); a longer row is added in blocks, so its sum is left to this
    parameter. *)
Variable np_sum : list float64 -> float64.

Definition np_sum_axis1_64 (a : matrix64) : list float64 := map np_sum a.

(** [GAM.normalize], on binary64 *)
Definition normalize64 (attributions : matrix64) : matrix64 :=
  let total := np_sum_axis1_64 (np_abs64 attributions) in
  np_divide64 (np_abs64 attributions) total.

(** The sum of absolute values of a row is nonzero: it is a number other
    than zero, or it has overflowed to infinity. *)
Definition nonzero_total64 (row : list float64) : bool :=
  match np_sum (map f64_abs row) with
  | S754_zero _ | S754_nan => false
  | _ => true
  end.

(** The absolute values of a row sum to 1: [abs(row).sum() == 1.0]. *)
Definition sums_to_one64 (row : list float64) : Prop :=
  f64_eqb (np_sum (map f64_abs row)) (f64 1 0) = true.

End Normalize64.

(** What is used of numpy's summation: on the absolute values of a row of
    1 to 7 entries it adds in order. *)
Definition adds_short_rows_in_order (np_sum : list float64 -> float64) : Prop :=
  forall row, row <> [] -> (length row < 8)%nat ->
    np_sum (map f64_abs row) = sum_in_order (map f64_abs row).

(** [x] is a float64 within half a unit in its last place of the number
    [q] (a finite [S754_finite s m e] stands for the number [m * 2^e], negated
    when [s] holds): the float a decimal literal for [q] denotes. *)
Definition literal64 (q : Q) (x : float64) : Prop :=
  match x with
  | S754_finite s m e =>
      valid_binary 53 1024 x = true
      /\ (Qabs ((if s then -1 else 1) * inject_Z (Zpos m) * Qpower 2 e - q)
          <= (1 # 2) * Qpower 2 e)%Q
  | _ => False
  end.

Definition example_attributions64 : matrix64 :=
  [[f64 2 0; f64 8 0]; [f64 1 0; f64 9 0]; [f64 8 0; f64 2 0]; [f64 9 0; f64 1 0]].

Definition example_decimals : list (list Q) :=
  [[2 # 10; 8 # 10]; [1 # 10; 9 # 10]; [8 # 10; 2 # 10]; [9 # 10; 1 # 10]]%Q.

(** The floats [.2], [.8], [.1] and [.9]. *)
Definition point2 : float64 := S754_finite false 7205759403792794 (-55).
Definition point8 : float64 := S754_finite false 7205759403792794 (-53).
Definition point1 : float64 := S754_finite false 7205759403792794 (-56).
Definition point9 : float64 := S754_finite false 8106479329266893 (-53).

Definition example_normalized64 : matrix64 :=
  [[point2; point8]; [point1; point9]; [point8; point2]; [point9; point1]].

(** A row whose quotients are rounded, and a row whose sum of absolute
    values exceeds the largest float. *)
Definition rounding_attributions64 : matrix64 := [[f64 1 0; f64 4 0; f64 1 0]].

Definition overflow_attributions64 : matrix64 := [[f64 1 1023; f64 1 1023]].

(** ** The instance, exceptions and the method monad *)

(** The two distance functions [gam.py] imports; only their identity as
    function objects matters to the driver. *)
Inductive distance_function : Type :=
  | spearman_squared_distance
  | mergeSortDistance.

Inductive exn : Type :=
  | UnboundLocalError (name : string)
  | IndexError
  | TypeError
  | ExternalError (msg : string).

Inductive outcome (A : Type) : Type :=
  | Ok (a : A)
  | Raise (e : exn).
Arguments Ok {A} a.
Arguments Raise {A} e.

Definition explanation : Type := list (string * float).

(** The fields of a [GAM] object.  [None] is Python's [None]; [silh_scores]
    is [None] until [get_optimal_clustering] creates the attribute. *)
Record GAM : Type := mkGAM {
  attributions_path : string;
  distance : string;
  k : Z;
  attributions : option matrix;
  normalized_attributions : option matrix;
  feature_labels : option (list string);
  subpopulations : option (list Z);
  subpopulation_sizes : option (list nat);
  explanations : option (list explanation);
  silh_scores : option (list (Q * Z))
}.

(** [GAM.__init__] *)
Definition init (attributions_path distance : string) (k : Z) : GAM :=
  mkGAM attributions_path distance k None None None None None None None.

Definition set_k (v : Z) (g : GAM) : GAM :=
  mkGAM g.(attributions_path) g.(distance) v g.(attributions)
        g.(normalized_attributions) g.(feature_labels) g.(subpopulations)
        g.(subpopulation_sizes) g.(explanations) g.(silh_scores).

Definition set_attributions (v : matrix) (g : GAM) : GAM :=
  mkGAM g.(attributions_path) g.(distance) g.(k) (Some v)
        g.(normalized_attributions) g.(feature_labels) g.(subpopulations)
        g.(subpopulation_sizes) g.(explanations) g.(silh_scores).

Definition set_normalized_attributions (v : matrix) (g : GAM) : GAM :=
  mkGAM g.(attributions_path) g.(distance) g.(k) g.(attributions)
        (Some v) g.(feature_labels) g.(subpopulations)
        g.(subpopulation_sizes) g.(explanations) g.(silh_scores).

Definition set_feature_labels (v : list string) (g : GAM) : GAM :=
  mkGAM g.(attributions_path) g.(distance) g.(k) g.(attributions)
        g.(normalized_attributions) (Some v) g.(subpopulations)
        g.(subpopulation_sizes) g.(explanations) g.(silh_scores).

Definition set_subpopulations (v : list Z) (g : GAM) : GAM :=
  mkGAM g.(attributions_path) g.(distance) g.(k) g.(attributions)
        g.(normalized_attributions) g.(feature_labels) (Some v)
        g.(subpopulation_sizes) g.(explanations) g.(silh_scores).

Definition set_subpopulation_sizes (v : list nat) (g : GAM) : GAM :=
  mkGAM g.(attributions_path) g.(distance) g.(k) g.(attributions)
        g.(normalized_attributions) g.(feature_labels) g.(subpopulations)
        (Some v) g.(explanations) g.(silh_scores).

Definition set_explanations (v : list explanation) (g : GAM) : GAM :=
  mkGAM g.(attributions_path) g.(distance) g.(k) g.(attributions)
        g.(normalized_attributions) g.(feature_labels) g.(subpopulations)
        g.(subpopulation_sizes) (Some v) g.(silh_scores).

Definition set_silh_scores (v : list (Q * Z)) (g : GAM) : GAM :=
  mkGAM g.(attributions_path) g.(distance) g.(k) g.(attributions)
        g.(normalized_attributions) g.(feature_labels) g.(subpopulations)
        g.(subpopulation_sizes) g.(explanations) (Some v).

(** One construction-and-fit of the clusterer, as [_cluster] issues it. *)
Record fit_call : Type := mkFit {
  fit_k : Z;
  fit_dist_func : distance_function;
  fit_max_iter : Z;
  fit_tol : Q;
  fit_data : matrix
}.

(** What a method runs on: the object and the log of clusterer calls made so
    far (most recent last). *)
Record state : Type := mkState {
  self : GAM;
  fit_calls : list fit_call
}.

Definition M (A : Type) : Type := state -> outcome A * state.

Definition ret {A} (a : A) : M A := fun s => (Ok a, s).

Definition raise {A} (e : exn) : M A := fun s => (Raise e, s).

Definition bind {A B} (c : M A) (f : A -> M B) : M B :=
  fun s => match c s with
           | (Ok a, s') => f a s'
           | (Raise e, s') => (Raise e, s')
           end.

Notation "'let*' x ':=' c 'in' f" := (bind c (fun x => f))
  (at level 10, x pattern, c at level 100, f at level 200).
Notation "c ';;' f" := (bind c (fun _ => f))
  (at level 100, f at level 200, right associativity).

Definition read {A} (field : GAM -> A) : M A := fun s => (Ok (field s.(self)), s).

Definition assign (set : GAM -> GAM) : M unit :=
  fun s => (Ok tt, mkState (set s.(self)) s.(fit_calls)).

(** The result of a collaborator's call enters the method. *)
Definition lift {A} (r : outcome A) : M A := fun s => (r, s).

(** Reading a field that must hold a value: [None] is not subscriptable,
    iterable or a valid array. *)
Definition read_some {A} (field : GAM -> option A) : M A :=
  fun s => match field s.(self) with
           | Some a => (Ok a, s)
           | None => (Raise TypeError, s)
           end.

Definition log_fit (c : fit_call) : M unit :=
  fun s => (Ok tt, mkState s.(self) (s.(fit_calls) ++ [c])).

(** ** Pure helpers *)

(** [collections.Counter(subpopulations)]: each element in turn adds one to
    its count, a missing key counting as 0. *)
Definition count_add (i : Z) (m : gmap Z nat) : gmap Z nat :=
  <[i := S (default 0%nat (m !! i))]> m.

Definition Counter (l : list Z) : gmap Z nat :=
  fold_left (fun m i => count_add i m) l ∅.

(** [sorted(index_to_size)]: the keys in ascending order. *)
Definition sorted_keys (m : gmap Z nat) : list Z :=
  merge_sort Z.le (map fst (map_to_list m)).

(** [GAM.get_subpopulation_sizes]; indexing a [Counter] gives 0 for a key
    it does not hold. *)
Definition get_subpopulation_sizes (subpopulations : list Z) : list nat :=
  let index_to_size := Counter subpopulations in
  map (fun i => default 0%nat (index_to_size !! i)) (sorted_keys index_to_size).

(** [a[i]] for a Python integer [i]: negative indices count from the end. *)
Definition getitem {A} (a : list A) (i : Z) : option A :=
  let n := Z.of_nat (length a) in
  if (0 <=? i) && (i <? n) then a !! Z.to_nat i
  else if (- n <=? i) && (i <? 0) then a !! Z.to_nat (n + i)
  else None.

(** [zip] stops at the shorter argument. *)
Definition zip {A B} (a : list A) (b : list B) : list (A * B) := combine a b.

(** [range(lo, hi)] *)
Definition range (lo hi : Z) : list Z := seqZ lo (hi - lo).

(** Comparison of [(score, k)] tuples, as [list.sort] uses it. *)
Definition tuple_leb (x y : Q * Z) : bool :=
  match Qcompare (fst x) (fst y) with
  | Lt => true
  | Eq => snd x <=? snd y
  | Gt => false
  end.

Definition tuple_le (x y : Q * Z) : Prop := tuple_leb x y = true.

#[global] Instance tuple_le_dec (x y : Q * Z) : Decision (tuple_le x y).
Proof. unfold tuple_le. apply _. Defined.

Definition sort (l : list (Q * Z)) : list (Q * Z) := merge_sort tuple_le l.

(** What a chosen tuple can be among the recorded ones: of highest score,
    and, among the tuples of its score, of largest or of smallest [k]. *)
Definition highest_score (scores : list (Q * Z)) (best : Q * Z) : Prop :=
  In best scores /\ forall p, In p scores -> (fst p <= fst best)%Q.

Definition ties_to_largest (scores : list (Q * Z)) (best : Q * Z) : Prop :=
  forall p, In p scores -> (fst p == fst best)%Q -> snd p <= snd best.

Definition ties_to_smallest (scores : list (Q * Z)) (best : Q * Z) : Prop :=
  forall p, In p scores -> (fst p == fst best)%Q -> snd best <= snd p.

(** ** The methods of [GAM] *)

Section Methods.

(** [np.genfromtxt(path, dtype=float, delimiter=",", skip_header=1)] *)
Variable np_genfromtxt : string -> outcome matrix.

(** [next(csv.reader(open(path)))]: the header row. *)
Variable csv_header : string -> outcome (list string).

(** [KMedoids(k, dist_func, max_iter, tol).fit(data)], giving the fitted
    [members] and [centers]. *)
Variable KMedoids_fit :
  Z -> distance_function -> Z -> Q -> matrix -> outcome (list Z * list Z).

(** [sklearn.metrics.pairwise_distances(X, metric)] and
    [silhouette_score(D, labels, metric="precomputed")]; a silhouette score
    is a number between -1 and 1. *)
Variable distance_matrix : Type.
Variable pairwise_distances : matrix -> distance_function -> outcome distance_matrix.
Variable silhouette_score : distance_matrix -> list Z -> outcome Q.

(** [GAM._read_local] *)
Definition _read_local : M unit :=
  let* path := read attributions_path in
  let* a := lift (np_genfromtxt path) in
  assign (set_attributions a);;
  let* labels := lift (csv_header path) in
  assign (set_feature_labels labels).

(** The loop of [GAM._get_explanations] over [centers]; each iteration
    reads [self.normalized_attributions] and [self.feature_labels]. *)
Fixpoint explanations_loop (centers : list Z) (explanations : list explanation)
  : M (list explanation) :=
  match centers with
  | [] => ret explanations
  | center_index :: rest =>
      let* normalized := read_some normalized_attributions in
      match getitem normalized center_index with
      | None => raise IndexError
      | Some explanation_weights =>
          let* labels := read_some feature_labels in
          explanations_loop rest (explanations ++ [zip labels explanation_weights])
      end
  end.

(** [GAM._get_explanations] *)
Definition _get_explanations (centers : list Z) : M (list explanation) :=
  explanations_loop centers [].

(** [GAM._cluster] *)
Definition _cluster (distance_function : distance_function)
           (max_iter : Z) (tol : Q) : M unit :=
  let* n_clusters := read k in
  let* data := read_some normalized_attributions in
  log_fit (mkFit n_clusters distance_function max_iter tol data);;
  let* clusters := lift (KMedoids_fit n_clusters distance_function max_iter tol data) in
  let '(members, centers) := clusters in
  assign (set_subpopulations members);;
  assign (set_subpopulation_sizes (get_subpopulation_sizes members));;
  let* e := _get_explanations centers in
  assign (set_explanations e).

(** The defaults of [_cluster]'s parameters. *)
Definition default_distance_function : distance_function := spearman_squared_distance.
Definition default_max_iter : Z := 1000.
Definition default_tol : Q := Qmake 1 10000.

(** [GAM.generate]: [self._cluster()] is called without arguments. *)
Definition generate : M unit :=
  _read_local;;
  let* a := read_some attributions in
  assign (set_normalized_attributions (normalize a));;
  _cluster default_distance_function default_max_iter default_tol.

(** The [if]/[elif] of [get_optimal_clustering]: [my_func] is bound by one
    of the two branches or keeps whatever it held. *)
Definition select_my_func (distance : string)
           (my_func : option distance_function) : option distance_function :=
  if String.eqb distance "spearman" then Some spearman_squared_distance
  else if String.eqb distance "kendall_tau" then Some mergeSortDistance
  else my_func.

(** One iteration of the candidate loop, on the locals [silh_list] and
    [my_func]. *)
Definition scan_body (n_cluster : Z) (silh_list : list (Q * Z))
           (my_func : option distance_function)
  : M (list (Q * Z) * option distance_function) :=
  assign (set_k n_cluster);;
  generate;;
  let* d := read distance in
  let my_func := select_my_func d my_func in
  match my_func with
  | None => raise (UnboundLocalError "my_func")
  | Some f =>
      let* normalized := read_some normalized_attributions in
      let* D := lift (pairwise_distances normalized f) in
      let* labels := read_some subpopulations in
      let* silhouette_avg := lift (silhouette_score D labels) in
      ret (silh_list ++ [(silhouette_avg, n_cluster)], my_func)
  end.

Fixpoint scan (candidates : list Z) (silh_list : list (Q * Z))
         (my_func : option distance_function) : M (list (Q * Z)) :=
  match candidates with
  | [] => ret silh_list
  | n_cluster :: rest =>
      let* locals := scan_body n_cluster silh_list my_func in
      scan rest (fst locals) (snd locals)
  end.

(** [GAM.get_optimal_clustering]; logging is not modelled. *)
Definition get_optimal_clustering (max_clusters : Z) : M unit :=
  let max_clusters := Z.max 2 max_clusters in
  let* silh_list := scan (range 2 (max_clusters + 1)) [] None in
  assign (set_silh_scores (sort silh_list));;
  let* scores := read_some silh_scores in
  match last scores with
  | None => raise IndexError
  | Some best =>
      let nCluster := snd best in
      assign (set_k nCluster);;
      generate
  end.

End Methods.

(** ** [plot]

    The plotting library is one more collaborator: for every explanation it
    receives the description of one chart.  The charts handed to it, in
    order, are what [plot] produces. *)

(** [x < y] on floats; every comparison with NaN is false. *)
Definition flt (x y : float) : bool :=
  match x, y with
  | Fin a, Fin b => match Qcompare a b with Lt => true | _ => false end
  | Fin _, Inf s => negb s
  | Inf s, Fin _ => s
  | Inf s, Inf s' => s && negb s'
  | _, _ => false
  end.

(** [sorted(explanations, key=lambda x: x[-1], reverse=False)]: a stable sort
    on the weights.  An element is placed before the first one that is not
    smaller than it, which keeps elements of equal weight in their original
    order; on weights that [<] orders totally this is the list Python
    returns. *)
Fixpoint insert_by_weight (x : string * float) (l : list (string * float))
  : list (string * float) :=
  match l with
  | [] => [x]
  | y :: l' => if flt (snd y) (snd x) then y :: insert_by_weight x l'
               else x :: y :: l'
  end.

Definition sorted_by_weight (explanations : list (string * float))
  : list (string * float) :=
  foldr insert_by_weight [] explanations.

(** [l[-n:]] for a Python integer [n]: the last [n] elements for a positive
    [n], the whole list for 0, and the list without its first [-n] elements
    for a negative [n]. *)
Definition slice_last {A} (n : Z) (l : list A) : list A :=
  let len := Z.of_nat (length l) in
  let start := if 0 <? n then Z.max (len - n) 0 else Z.min (- n) len in
  drop (Z.to_nat start) l.

(** One chart: the figure size, the bars (label and width, bottom to top),
    the title, the file it is saved to and whether it is shown. *)
Record chart : Type := mkChart {
  chart_figsize : Z * Z;
  chart_bars : list (string * float);
  chart_title : string;
  chart_saved : option string;
  chart_shown : bool
}.

(** ["{}_explanation_{}.png".format(output_path_base, idx + 1)] *)
Definition output_path (output_path_base : string) (idx : nat) : string :=
  (output_path_base +:+ "_explanation_" +:+ pretty (S idx) +:+ ".png")%string.

(** [if output_path_base:] holds for a string that is not empty; the
    default [None] does not hold. *)
Definition save_target (output_path_base : option string) (idx : nat)
  : option string :=
  match output_path_base with
  | None => None
  | Some base => if String.eqb base "" then None else Some (output_path base idx)
  end.

(** [hasattr(self, "explanations")]: [__init__] assigns the attribute and no
    method deletes it. *)
Definition hasattr_explanations (g : GAM) : bool := true.

Section Plot.

Variable np_genfromtxt : string -> outcome matrix.
Variable csv_header : string -> outcome (list string).
Variable KMedoids_fit :
  Z -> distance_function -> Z -> Q -> matrix -> outcome (list Z * list Z).

(** The calls on [plt] and [axs] for one chart. *)
Variable render : chart -> outcome unit.

(** The chart of the explanation at position [idx]. *)
Definition chart_of (num_features : Z) (output_path_base : option string)
           (display : bool) (idx : nat) (explanations : list (string * float))
  : chart :=
  let fig_x := 5 in
  let fig_y := num_features in
  let explanations_sorted := slice_last num_features (sorted_by_weight explanations) in
  mkChart (fig_x, fig_y) explanations_sorted
          ("Explanation " +:+ pretty (S idx))%string
          (save_target output_path_base idx) display.

(** The loop of [plot] over [enumerate(self.explanations)], with the charts
    handed to the library so far. *)
Fixpoint plot_loop (num_features : Z) (output_path_base : option string)
         (display : bool) (idx : nat) (explanations : list explanation)
         (charts : list chart) : outcome unit * list chart :=
  match explanations with
  | [] => (Ok tt, charts)
  | e :: rest =>
      let c := chart_of num_features output_path_base display idx e in
      match render c with
      | Raise ex => (Raise ex, charts ++ [c])
      | Ok _ => plot_loop num_features output_path_base display (S idx) rest
                          (charts ++ [c])
      end
  end.

(** [GAM.plot]: the outcome, the charts handed to the library and the
    instance afterwards. *)
Definition plot (num_features : Z) (output_path_base : option string)
           (display : bool) (s : state) : (outcome unit * list chart) * state :=
  let '(r, s1) :=
    (if negb (hasattr_explanations s.(self))
     then generate np_genfromtxt csv_header KMedoids_fit
     else ret tt) s in
  match r with
  | Raise e => ((Raise e, []), s1)
  | Ok _ =>
      match explanations s1.(self) with
      | None => ((Raise TypeError, []), s1)
      | Some es => (plot_loop num_features output_path_base display 0 es [], s1)
      end
  end.

End Plot.

(** ** Vocabulary for the statements about the methods *)

(** [x] is not above [y] by weight: [y]'s weight is not smaller. *)
Definition weight_le (x y : string * float) : Prop :=
  flt (snd y) (snd x) = false.

(** The weights of an explanation are numbers. *)
Definition finite_weights (e : list (string * float)) : Prop :=
  Forall (fun x => is_finite (snd x) = true) e.

(** What the explanation loop computes, as a relation between the medoid
    indices and the explanations. *)
Definition explains (normalized : matrix) (labels : list string)
           (centers : list Z) (es : list explanation) : Prop :=
  Forall2 (fun c e => exists row, getitem normalized c = Some row
                                  /\ e = zip labels row) centers es.

(** The call [generate] issues to the clusterer when the instance holds
    [n_clusters] and the file holds [a]. *)
Definition generate_fit (n_clusters : Z) (a : matrix) : fit_call :=
  mkFit n_clusters spearman_squared_distance 1000 (Qmake 1 10000) (normalize a).

(** The instance with [self.k = n_cluster] assigned. *)
Definition with_k (n_cluster : Z) (s : state) : state :=
  mkState (set_k n_cluster s.(self)) s.(fit_calls).

(** The instance as [get_optimal_clustering] leaves it before the final
    [generate]: the sorted scores stored and the chosen [k] assigned. *)
Definition with_choice (scores : list (Q * Z)) (n_cluster : Z) (s : state) : state :=
  mkState (set_k n_cluster (set_silh_scores scores s.(self))) s.(fit_calls).

(** How one candidate [(score, k)] is scored on the matrix [a]: the
    partition comes from the clusterer run with the default distance, the
    distance matrix from the metric [f]. *)
Definition scored_with
           (KMedoids_fit : Z -> distance_function -> Z -> Q -> matrix
                           -> outcome (list Z * list Z))
           (distance_matrix : Type)
           (pairwise_distances : matrix -> distance_function -> outcome distance_matrix)
           (silhouette_score : distance_matrix -> list Z -> outcome Q)
           (a : matrix) (f : distance_function) (p : Q * Z) : Prop :=
  exists members centers D,
    KMedoids_fit (snd p) spearman_squared_distance 1000 (Qmake 1 10000)
                 (normalize a) = Ok (members, centers)
    /\ pairwise_distances (normalize a) f = Ok D
    /\ silhouette_score D members = Ok (fst p).

(** ** A sample installation

    Concrete collaborators for running the methods: a file system that holds
    the four-instance example under the default path, the clusterer's
    answers on that example, and two scorers. *)

Definition sample_path : string := "local_attributions.csv".

Definition sample_labels : list string := ["height"; "weight"]%string.

Definition sample_genfromtxt (path : string) : outcome matrix :=
  if String.eqb path sample_path then Ok example_attributions
  else Raise (ExternalError "OSError").

Definition sample_csv_header (path : string) : outcome (list string) :=
  if String.eqb path sample_path then Ok sample_labels
  else Raise (ExternalError "OSError").

(** The clusterer on the four example rows: for two clusters the two pairs
    of similar rows, each with one of its rows as medoid; for four clusters
    every row its own medoid; for three one pair and two single rows. *)
Definition sample_fit (n_clusters : Z) (dist_func : distance_function)
           (max_iter : Z) (tol : Q) (data : matrix)
  : outcome (list Z * list Z) :=
  if negb (length data =? 4)%nat then Raise (ExternalError "ValueError")
  else if n_clusters =? 2 then Ok ([0; 0; 1; 1], [0; 2])
  else if n_clusters =? 3 then Ok ([0; 0; 1; 2], [0; 2; 3])
  else if n_clusters =? 4 then Ok ([0; 1; 2; 3], [0; 1; 2; 3])
  else Raise (ExternalError "ValueError").

Definition sample_distance_matrix : Type := matrix * distance_function.

Definition sample_pairwise_distances (X : matrix) (metric : distance_function)
  : outcome sample_distance_matrix := Ok (X, metric).

(** A scorer that prefers two clusters, and one that scores every partition
    alike. *)
Definition sample_silhouette_score (D : sample_distance_matrix) (labels : list Z)
  : outcome Q :=
  if (length (remove_dups labels) =? 2)%nat then Ok (Qmake 3 4) else Ok (Qmake 1 2).

Definition tied_silhouette_score (D : sample_distance_matrix) (labels : list Z)
  : outcome Q := Ok (Qmake 1 2).

Definition sample_generate : M unit :=
  generate sample_genfromtxt sample_csv_header sample_fit.

Definition sample_get_optimal_clustering
           (score : sample_distance_matrix -> list Z -> outcome Q)
           (max_clusters : Z) : M unit :=
  get_optimal_clustering sample_genfromtxt sample_csv_header sample_fit
                         sample_distance_matrix sample_pairwise_distances score
                         max_clusters.

(** A new instance reading the sample file, before any method has run. *)
Definition fresh (distance : string) (n_clusters : Z) : state :=
  mkState (init sample_path distance n_clusters) [].

(** The instance after automatic selection up to three clusters when every
    partition scores alike, and the outcome and instance after automatic
    selection under the unknown distance name "cosine". *)
Definition tied_selection : state :=
  snd (sample_get_optimal_clustering tied_silhouette_score 3 (fresh "spearman" 2)).

Definition cosine_selection : outcome unit * state :=
  sample_get_optimal_clustering sample_silhouette_score 2 (fresh "cosine" 2).

(** An instance holding the normalised example and its labels. *)
Definition explained_state : state :=
  mkState (set_feature_labels sample_labels
             (set_normalized_attributions example_normalized
                (init sample_path "spearman" 2))) [].

(** An instance whose file does not exist, and a clusterer that answers
    with a medoid index beyond the four rows. *)
Definition missing_file : state :=
  mkState (init "missing.csv" "spearman" 2) [].

Definition wild_fit (n_clusters : Z) (dist_func : distance_function)
           (max_iter : Z) (tol : Q) (data : matrix)
  : outcome (list Z * list Z) := Ok ([0; 0; 1; 1], [0; 9]).

(** A plotting library that accepts every chart, the sample instance after
    [generate], and [plot] on the sample installation. *)
Definition sample_render (c : chart) : outcome unit := Ok tt.

Definition generated : state := snd (sample_generate (fresh "spearman" 2)).

Definition sample_plot (num_features : Z) (output_path_base : option string)
           (display : bool) (s : state) : (outcome unit * list chart) * state :=
  plot sample_genfromtxt sample_csv_header sample_fit sample_render
       num_features output_path_base display s.

(** * Properties *)

(** ** Lemmas on [normalize] *)

Lemma normalize_rows (a : matrix) : normalize a = map normalize_row a.
Proof.
  unfold normalize, np_divide, np_sum_axis1, np_abs, normalize_row, abs_total.
  induction a as [|row a IH]; simpl; [reflexivity|].
  f_equal; [|exact IH].
  rewrite map_map. reflexivity.
Qed.

Lemma fabs_idemp (x : float) : fabs (fabs x) = fabs x.
Proof.
  destruct x as [[n d]| |]; simpl; try reflexivity.
  unfold Qabs. rewrite Z.abs_idemp. reflexivity.
Qed.

Lemma map_fabs_idemp (row : list float) : map fabs (map fabs row) = map fabs row.
Proof.
  rewrite map_map. apply map_ext. intros x. apply fabs_idemp.
Qed.

Lemma row_sum_not_fin (l : list float) (x : float) :
  is_finite x = false -> is_finite (fold_left fadd l x) = false.
Proof.
  revert x. induction l as [|y l IH]; intros x Hx; simpl; [exact Hx|].
  apply IH. destruct x as [q|s|]; [discriminate| |reflexivity].
  destruct y as [q|s'|]; simpl; [reflexivity| |reflexivity].
  destruct (Bool.eqb s s'); reflexivity.
Qed.

Lemma abs_sum_fin_inv (row : list float) (acc t : Q) :
  fold_left fadd (map fabs row) (Fin acc) = Fin t ->
  exists qs, row = map Fin qs /\ t = Qsum (map Qabs qs) acc.
Proof.
  revert acc. induction row as [|x row IH]; intros acc H; simpl in H.
  - exists []. split; [reflexivity|]. injection H as <-. reflexivity.
  - destruct x as [q|s|]; simpl in H.
    + destruct (IH _ H) as (qs & -> & ->).
      exists (q :: qs). split; reflexivity.
    + pose proof (row_sum_not_fin (map fabs row) (Inf false) eq_refl) as Hn.
      rewrite H in Hn. discriminate.
    + pose proof (row_sum_not_fin (map fabs row) NaN eq_refl) as Hn.
      rewrite H in Hn. discriminate.
Qed.

Lemma abs_sum_fin (qs : list Q) (acc : Q) :
  fold_left fadd (map fabs (map Fin qs)) (Fin acc) = Fin (Qsum (map Qabs qs) acc).
Proof.
  revert acc. induction qs as [|q qs IH]; intros acc; simpl; [reflexivity|].
  apply IH.
Qed.

Lemma Qsum_acc (qs : list Q) (acc : Q) : (Qsum qs acc == acc + Qsum qs 0)%Q.
Proof.
  unfold Qsum. revert acc. induction qs as [|q qs IH]; intros acc; simpl.
  - ring.
  - rewrite (IH (acc + q)%Q), (IH (0 + q)%Q). ring.
Qed.

Lemma Qsum_abs_nonneg (qs : list Q) : (0 <= Qsum (map Qabs qs) 0)%Q.
Proof.
  induction qs as [|q qs IH]; simpl.
  - apply Qle_refl.
  - unfold Qsum in *. simpl. fold (Qsum (map Qabs qs) (0 + Qabs q)%Q).
    rewrite Qsum_acc.
    pose proof (Qabs_nonneg q) as Hq.
    apply (Qle_trans _ ((0 + 0) + 0)%Q); [discriminate|].
    apply Qplus_le_compat; [|exact IH].
    apply Qplus_le_compat; [apply Qle_refl|exact Hq].
Qed.

Lemma normalize_row_fin (qs : list Q) (t : Q) :
  abs_total (map Fin qs) = Fin t ->
  Qeq_bool t 0 = false ->
  normalize_row (map Fin qs) = map Fin (map (fun q => Qabs q / t)%Q qs).
Proof.
  intros Ht Hz. unfold normalize_row. rewrite Ht.
  rewrite map_map. rewrite map_map. apply map_ext. intros q. simpl.
  rewrite Hz. reflexivity.
Qed.

(** ** Subpopulation sizes *)

Section Sizes.

Implicit Types (l ids : list Z) (m : gmap Z nat) (i : Z).

Lemma Counter_fold_count l m i :
  default 0%nat (fold_left (fun m i => count_add i m) l m !! i)
  = (default 0%nat (m !! i) + count_occ Z.eq_dec l i)%nat.
Proof.
  revert m. induction l as [|x l IH]; intros m; simpl; [lia|].
  rewrite IH. unfold count_add.
  destruct (Z.eq_dec x i) as [->|Hne].
  - rewrite lookup_insert_eq. simpl. lia.
  - rewrite lookup_insert_ne by exact Hne. lia.
Qed.

Lemma Counter_fold_dom l m i :
  is_Some (fold_left (fun m i => count_add i m) l m !! i)
  <-> is_Some (m !! i) \/ i ∈ l.
Proof.
  revert m. induction l as [|x l IH]; intros m; simpl.
  - split; [intros H; left; exact H|].
    intros [H|H]; [exact H|]. inversion H.
  - rewrite IH. unfold count_add. rewrite elem_of_cons.
    destruct (decide (x = i)) as [->|Hne].
    + rewrite lookup_insert_eq. split; [intros _|intros _; left; eauto].
      right. left. reflexivity.
    + rewrite lookup_insert_ne by exact Hne.
      split; [intros [H|H]; [left|right; right]; exact H|].
      intros [H|[H|H]]; [left; exact H| congruence |right; exact H].
Qed.

Lemma Counter_count l i :
  default 0%nat (Counter l !! i) = count_occ Z.eq_dec l i.
Proof.
  unfold Counter. rewrite (Counter_fold_count l ∅ i).
  rewrite lookup_empty. reflexivity.
Qed.

Lemma Counter_dom l i : is_Some (Counter l !! i) <-> i ∈ l.
Proof.
  unfold Counter. rewrite (Counter_fold_dom l ∅ i).
  rewrite lookup_empty. split; [intros [[? H]|H]; [discriminate|exact H]|].
  intros H. right. exact H.
Qed.

Lemma sorted_keys_elem m i : i ∈ sorted_keys m <-> is_Some (m !! i).
Proof.
  unfold sorted_keys. rewrite merge_sort_Permutation.
  rewrite list_elem_of_fmap. split.
  - intros ([j v] & -> & H). apply elem_of_map_to_list in H. eauto.
  - intros [v H]. exists (i, v). split; [reflexivity|].
    apply elem_of_map_to_list. exact H.
Qed.

Lemma sorted_keys_NoDup m : NoDup (sorted_keys m).
Proof.
  unfold sorted_keys. rewrite merge_sort_Permutation.
  apply NoDup_fst_map_to_list.
Qed.

Lemma sorted_keys_ascending m : StronglySorted Z.lt (sorted_keys m).
Proof.
  pose proof (sorted_keys_NoDup m) as Hnd.
  assert (Hs : StronglySorted Z.le (sorted_keys m)).
  { unfold sorted_keys. apply (StronglySorted_merge_sort Z.le). }
  induction Hs as [|x ks Hs IH Hall]; [constructor|].
  apply NoDup_cons in Hnd as [Hx Hnd].
  constructor; [apply IH; exact Hnd|].
  rewrite List.Forall_forall in Hall |- *. intros y Hy.
  assert (x <> y) by (intros ->; apply Hx, list_elem_of_In, Hy).
  specialize (Hall y Hy). lia.
Qed.

(** Counting each element of a duplicate-free cover once per occurrence
    counts the whole list. *)
Lemma sum_count_occ l ids :
  NoDup ids -> (forall i, i ∈ l -> i ∈ ids) ->
  sum_list (map (count_occ Z.eq_dec l) ids) = length l.
Proof.
  intros Hnd. induction l as [|x l IH]; intros Hcover.
  - clear Hnd Hcover. induction ids as [|i ids IHi]; [reflexivity|].
    simpl. exact IHi.
  - simpl length. rewrite <- IH by (intros i Hi; apply Hcover; right; exact Hi).
    assert (Hx : x ∈ ids) by (apply Hcover; left).
    clear IH Hcover. induction ids as [|i ids IHi]; [inversion Hx|].
    apply NoDup_cons in Hnd as [Hi Hnd]. simpl.
    destruct (Z.eq_dec x i) as [->|Hne].
    + assert (Hrest : sum_list (map (count_occ Z.eq_dec (i :: l)) ids)
                      = sum_list (map (count_occ Z.eq_dec l) ids)).
      { f_equal. apply map_ext_in. intros j Hj. simpl.
        destruct (Z.eq_dec i j) as [->|]; [|reflexivity].
        apply list_elem_of_In in Hj. contradiction. }
      simpl in Hrest. rewrite Hrest. lia.
    + apply elem_of_cons in Hx as [Hx|Hx]; [congruence|].
      specialize (IHi Hnd Hx). simpl in IHi. lia.
Qed.

End Sizes.

(** ** More on [normalize]: signs and degenerate rows *)

Lemma Qnegative_nonneg (q : Q) : (0 <= q)%Q -> Qnegative q = false.
Proof.
  intros Hq. unfold Qnegative.
  destruct (Qcompare q 0) eqn:Hc; try reflexivity.
  apply Qlt_alt in Hc. exfalso. exact (Qlt_not_le _ _ Hc Hq).
Qed.

Lemma abs_total_nonneg (row : list float) (t : Q) :
  abs_total row = Fin t -> (0 <= t)%Q.
Proof.
  intros Ht. unfold abs_total, row_sum in Ht.
  destruct (abs_sum_fin_inv _ _ _ Ht) as (qs & _ & ->).
  apply Qsum_abs_nonneg.
Qed.

Lemma all_finite_map_Fin (row : list float) :
  forallb is_finite row = true -> exists qs, row = map Fin qs.
Proof.
  induction row as [|x row IH]; simpl; intros H.
  - exists []. reflexivity.
  - apply andb_true_iff in H as [Hx Hr]. destruct (IH Hr) as [qs ->].
    destruct x as [q| |]; try discriminate. exists (q :: qs). reflexivity.
Qed.

Lemma abs_total_not_fin (row : list float) :
  is_finite (abs_total row) = false ->
  exists x, In x row /\ is_finite x = false.
Proof.
  intros Ht. destruct (forallb is_finite row) eqn:Hall.
  - destruct (all_finite_map_Fin row Hall) as [qs ->].
    unfold abs_total, row_sum in Ht. rewrite abs_sum_fin in Ht. discriminate.
  - assert (Hex : existsb (fun x => negb (is_finite x)) row = true).
    { clear Ht. induction row as [|x row IH]; simpl in *; [discriminate|].
      destruct (is_finite x); simpl in *; [apply IH; exact Hall|reflexivity]. }
    apply List.existsb_exists in Hex as (x & Hin & Hx).
    exists x. split; [exact Hin|]. apply negb_true_iff in Hx. exact Hx.
Qed.

(** Every entry of a normalised row is non-negative, or it is NaN and the
    row had no nonzero total. *)
Lemma normalize_row_sign (row : list float) :
  Forall (fun x => fnonneg x = true \/ (x = NaN /\ nonzero_total row = false))
         (normalize_row row).
Proof.
  unfold normalize_row, nonzero_total.
  apply List.Forall_forall. intros y Hy.
  apply List.in_map_iff in Hy as (x & <- & Hin).
  destruct (abs_total row) as [t|s|] eqn:Ht.
  - pose proof (abs_total_nonneg row t Ht) as Hge.
    unfold abs_total, row_sum in Ht.
    destruct (abs_sum_fin_inv _ _ _ Ht) as (qs & -> & _).
    apply List.in_map_iff in Hin as (q & <- & _). simpl.
    destruct (Qeq_bool t 0) eqn:Hz.
    + destruct (Qeq_bool (Qabs q) 0); [right; split; reflexivity|].
      left. simpl. rewrite Qnegative_nonneg by apply Qabs_nonneg. reflexivity.
    + left. simpl. rewrite Qnegative_nonneg; [reflexivity|].
      apply Qeq_bool_neq in Hz.
      apply Qle_shift_div_l; [|rewrite Qmult_0_l; apply Qabs_nonneg].
      apply Qle_lteq in Hge. destruct Hge as [H|H]; [exact H|].
      exfalso. apply Hz. symmetry. exact H.
  - destruct x as [q|s'|]; simpl; [left|right|right]; try split; reflexivity.
  - destruct x as [q|s'|]; simpl; right; split; reflexivity.
Qed.

(** A row whose absolute values sum to zero is mapped to NaN throughout. *)
Lemma normalize_row_zero (row : list float) :
  zero_total row = true -> normalize_row row = map (fun _ => NaN) row.
Proof.
  unfold zero_total, normalize_row.
  destruct (abs_total row) as [t| |] eqn:Ht; try discriminate. intros Hz.
  pose proof Ht as Ht'. unfold abs_total, row_sum in Ht'.
  destruct (abs_sum_fin_inv _ _ _ Ht') as (qs & -> & Et).
  rewrite !map_map. apply map_ext_in. intros q Hq. simpl. rewrite Hz.
  assert (Hq0 : (Qabs q == 0)%Q).
  { apply Qeq_bool_eq in Hz. apply Qle_antisym; [|apply Qabs_nonneg].
    rewrite <- Hz, Et. clear -Hq. induction qs as [|q' qs IH]; [inversion Hq|].
    unfold Qsum. simpl. fold (Qsum (map Qabs qs) (0 + Qabs q')%Q).
    rewrite Qsum_acc. pose proof (Qsum_abs_nonneg qs) as Hs.
    pose proof (Qabs_nonneg q') as Hq'.
    destruct Hq as [->|Hq].
    - rewrite <- (Qplus_0_r (Qabs q)) at 1. apply Qplus_le_compat; [|exact Hs].
      rewrite Qplus_0_l. apply Qle_refl.
    - apply (Qle_trans _ _ _ (IH Hq)).
      rewrite <- (Qplus_0_l (Qsum (map Qabs qs) 0)) at 1.
      apply Qplus_le_compat; [|apply Qle_refl].
      rewrite Qplus_0_l. exact Hq'. }
  apply Qeq_eq_bool in Hq0. rewrite Hq0. reflexivity.
Qed.

(** On a non-empty row the quotient is a number in every position exactly
    when the row's total is a nonzero number. *)
Lemma normalize_row_finite_iff (row : list float) :
  row <> [] ->
  forallb is_finite (normalize_row row) = true <-> nonzero_total row = true.
Proof.
  intros Hne. split.
  - intros Hfin. unfold nonzero_total.
    destruct (abs_total row) as [t|s|] eqn:Ht.
    + destruct (Qeq_bool t 0) eqn:Hz; [|reflexivity]. exfalso.
      assert (Hzt : zero_total row = true) by (unfold zero_total; rewrite Ht; exact Hz).
      rewrite (normalize_row_zero row Hzt) in Hfin.
      destruct row as [|x row]; [congruence|]. simpl in Hfin. discriminate.
    + exfalso.
      destruct (abs_total_not_fin row) as (x & Hin & Hx); [rewrite Ht; reflexivity|].
      rewrite List.forallb_forall in Hfin.
      specialize (Hfin (fdiv (fabs x) (abs_total row))).
      rewrite Ht in Hfin. unfold normalize_row in Hfin. rewrite Ht in Hfin.
      assert (Hy : In (fdiv (fabs x) (Inf s)) (map (fun x => fdiv (fabs x) (Inf s)) row))
        by (apply List.in_map_iff; exists x; split; [reflexivity|exact Hin]).
      specialize (Hfin Hy). destruct x; simpl in *; discriminate.
    + exfalso. unfold normalize_row in Hfin. rewrite Ht in Hfin.
      destruct row as [|x row]; [congruence|]. simpl in Hfin.
      destruct x; simpl in Hfin; discriminate.
  - unfold nonzero_total.
    destruct (abs_total row) as [t| |] eqn:Ht; try discriminate. intros Hnz.
    apply negb_true_iff in Hnz.
    pose proof Ht as Ht'. unfold abs_total, row_sum in Ht'.
    destruct (abs_sum_fin_inv _ _ _ Ht') as (qs & -> & _).
    rewrite (normalize_row_fin qs t Ht Hnz).
    apply List.forallb_forall. intros y Hy.
    apply List.in_map_iff in Hy as (q & <- & _). reflexivity.
Qed.

(** ** Claims on [normalize] and [get_subpopulation_sizes] *)


Lemma normalize64_rows (np_sum : list float64 -> float64) (a : matrix64) :
  normalize64 np_sum a
  = map (fun row => map (fun x => f64_div (f64_abs x) (np_sum (map f64_abs row))) row) a.
Proof.
  unfold normalize64, np_divide64, np_sum_axis1_64, np_abs64.
  induction a as [|row a IH]; simpl; [reflexivity|].
  f_equal; [|exact IH].
  rewrite map_map. reflexivity.
Qed.

(** On short rows the result does not depend on how numpy adds longer
    ones. *)
Lemma normalize64_short (np_sum : list float64 -> float64) (a : matrix64) :
  adds_short_rows_in_order np_sum ->
  Forall (fun row => row <> [] /\ (length row < 8)%nat) a ->
  normalize64 np_sum a = normalize64 sum_in_order a.
Proof.
  intros Hsum Hshort. rewrite !normalize64_rows.
  induction Hshort as [|row rest [Hne Hlen] _ IH]; simpl; [reflexivity|].
  rewrite IH, (Hsum row Hne Hlen). reflexivity.
Qed.

Lemma sums_to_one64_short (np_sum : list float64 -> float64) (row : list float64) :
  adds_short_rows_in_order np_sum ->
  row <> [] -> (length row < 8)%nat ->
  sums_to_one64 sum_in_order row -> sums_to_one64 np_sum row.
Proof.
  intros Hsum Hne Hlen. unfold sums_to_one64. rewrite (Hsum row Hne Hlen).
  intros H. exact H.
Qed.



(** C9, as stated, fails on a matrix with an all-zero row: the entries of
    that row become NaN, which is not non-negative. *)
Lemma normalize_nonneg_counterexample :
  ~ (normalize zero_row_attributions = normalize (np_abs zero_row_attributions)
     /\ Forall (Forall (fun x => fnonneg x = true)) (normalize zero_row_attributions)).
Proof.
  intros [_ H]. vm_compute in H.
  inversion H as [|row rest Hrow _]. inversion Hrow as [|x xs Hx _].
  discriminate Hx.
Qed.

(** C9, amended. For every attribution matrix, [normalize] gives the same
    result on the matrix and on its element-wise absolute value, and every
    entry of the result is non-negative, or is NaN in a row whose sum of
    absolute values is not a nonzero number. *)
Theorem normalize_discards_signs (attributions : matrix) :
  normalize attributions = normalize (np_abs attributions)
  /\ Forall2 (fun row nrow =>
                Forall (fun x => fnonneg x = true
                                 \/ (x = NaN /\ nonzero_total row = false)) nrow)
             attributions (normalize attributions).
Proof.
  split.
  - unfold normalize, np_abs.
    rewrite (map_map (map fabs) (map fabs)).
    rewrite (map_ext _ _ map_fabs_idemp). reflexivity.
  - rewrite normalize_rows.
    induction attributions as [|row rest IH]; simpl; constructor.
    + apply normalize_row_sign.
    + exact IH.
Qed.



(** C7. The list returned by [get_subpopulation_sizes] sums to the length of
    the membership array, has one entry per distinct cluster id present, and
    lists the number of members of each id in ascending order of the ids. *)
Theorem get_subpopulation_sizes_spec (subpopulations : list Z) :
  sum_list (get_subpopulation_sizes subpopulations) = length subpopulations
  /\ length (get_subpopulation_sizes subpopulations)
     = length (remove_dups subpopulations)
  /\ exists ids,
       StronglySorted Z.lt ids
       /\ (forall i, In i ids <-> In i subpopulations)
       /\ get_subpopulation_sizes subpopulations
          = map (count_occ Z.eq_dec subpopulations) ids.
Proof.
  set (ids := sorted_keys (Counter subpopulations)).
  assert (Hids : forall i, i ∈ ids <-> i ∈ subpopulations).
  { intros i. unfold ids. rewrite sorted_keys_elem. apply Counter_dom. }
  assert (Hnd : NoDup ids) by apply sorted_keys_NoDup.
  assert (Hsizes : get_subpopulation_sizes subpopulations
                   = map (count_occ Z.eq_dec subpopulations) ids).
  { unfold get_subpopulation_sizes. fold ids. apply map_ext.
    intros i. apply Counter_count. }
  split; [|split].
  - rewrite Hsizes. apply sum_count_occ; [exact Hnd|].
    intros i Hi. apply Hids. exact Hi.
  - rewrite Hsizes, length_map. apply Permutation_length.
    apply NoDup_Permutation; [exact Hnd|apply NoDup_remove_dups|].
    intros i. rewrite Hids, elem_of_remove_dups. reflexivity.
  - exists ids. split; [apply sorted_keys_ascending|]. split; [|exact Hsizes].
    intros i. rewrite <- !list_elem_of_In. apply Hids.
Qed.

(** ** The explanation builder *)

Lemma getitem_valid {A} (a : list A) (i : Z) :
  0 <= i < Z.of_nat (length a) ->
  exists x, getitem a i = Some x /\ a !! Z.to_nat i = Some x.
Proof.
  intros [Hlo Hhi]. unfold getitem.
  assert (Hb : (0 <=? i) && (i <? Z.of_nat (length a)) = true).
  { apply andb_true_iff. split; [apply Z.leb_le|apply Z.ltb_lt]; lia. }
  rewrite Hb.
  destruct (lookup_lt_is_Some_2 a (Z.to_nat i)) as [x Hx]; [lia|].
  exists x. split; exact Hx.
Qed.

Lemma explanations_loop_valid (centers : list Z) (acc : list explanation)
      (s : state) (normalized : matrix) (labels : list string) :
  normalized_attributions s.(self) = Some normalized ->
  feature_labels s.(self) = Some labels ->
  Forall (fun c => 0 <= c < Z.of_nat (length normalized)) centers ->
  exists rows,
    Forall2 (fun c row => normalized !! Z.to_nat c = Some row) centers rows
    /\ explanations_loop centers acc s = (Ok (acc ++ map (zip labels) rows), s).
Proof.
  intros Hn Hl. revert acc. induction centers as [|c centers IH]; intros acc Hv.
  - exists []. split; [constructor|]. simpl. rewrite app_nil_r. reflexivity.
  - apply Forall_cons in Hv as [Hc Hv].
    destruct (getitem_valid normalized c Hc) as (row & Hg & Hrow).
    destruct (IH (acc ++ [zip labels row]) Hv) as (rows & Hrows & Hrun).
    exists (row :: rows). split; [constructor; assumption|].
    simpl. unfold bind, read_some. rewrite Hn, Hg, Hl.
    rewrite Hrun. rewrite <- app_assoc. reflexivity.
Qed.

(** C8. For medoid indices that are valid row indices of the normalised
    matrix and feature labels as long as the rows, [_get_explanations]
    returns one list per index, in the order of the indices; the list for an
    index pairs the labels with the weights of that row, position by
    position; and the instance is left as it was. *)
Theorem get_explanations_spec (centers : list Z) (s : state)
        (normalized : matrix) (labels : list string)
        (Hnorm : normalized_attributions s.(self) = Some normalized)
        (Hlabels : feature_labels s.(self) = Some labels)
        (Hvalid : Forall (fun c => 0 <= c < Z.of_nat (length normalized)) centers)
        (Hcols : Forall (fun row => length row = length labels) normalized) :
  exists es,
    _get_explanations centers s = (Ok es, s)
    /\ Forall2 (fun c e =>
                  exists row, normalized !! Z.to_nat c = Some row
                              /\ map fst e = labels /\ map snd e = row
                              /\ forall i lab w, labels !! i = Some lab ->
                                                 row !! i = Some w ->
                                                 e !! i = Some (lab, w))
               centers es.
Proof.
  destruct (explanations_loop_valid centers [] s normalized labels Hnorm Hlabels Hvalid)
    as (rows & Hrows & Hrun).
  exists (map (zip labels) rows). split; [exact Hrun|].
  clear Hrun Hvalid. induction Hrows as [|c row centers rows Hrow Hrows IH]; simpl.
  - constructor.
  - constructor; [|exact IH].
    exists row. split; [exact Hrow|].
    assert (Hlen : length row = length labels).
    { rewrite List.Forall_forall in Hcols. apply Hcols.
      apply list_elem_of_In. eapply list_elem_of_lookup_2. exact Hrow. }
    unfold zip. split; [|split].
    + clear -Hlen. revert row Hlen. induction labels as [|l ls IHl]; intros [|w ws] H;
        simpl in *; try reflexivity; try discriminate.
      f_equal. apply IHl. lia.
    + clear -Hlen. revert row Hlen. induction labels as [|l ls IHl]; intros [|w ws] H;
        simpl in *; try reflexivity; try discriminate.
      f_equal. apply IHl. lia.
    + intros i. clear -Hlen. revert row Hlen i.
      induction labels as [|l ls IHl]; intros [|w ws] H i lab x Hl Hw;
        simpl in *; try discriminate.
      destruct i as [|i]; simpl in *; [congruence|].
      apply (IHl ws); [lia|exact Hl|exact Hw].
Qed.

(** ** Order on [(score, k)] tuples and the selection after sorting *)

Lemma tuple_le_spec (x y : Q * Z) :
  tuple_le x y <->
  (fst x < fst y)%Q \/ ((fst x == fst y)%Q /\ snd x <= snd y).
Proof.
  unfold tuple_le, tuple_leb.
  destruct (Qcompare (fst x) (fst y)) eqn:Hc.
  - apply Qeq_alt in Hc. rewrite Z.leb_le. split.
    + intros H. right. split; assumption.
    + intros [H|[_ H]]; [|exact H].
      exfalso. rewrite Hc in H. exact (Qlt_irrefl _ H).
  - apply Qlt_alt in Hc. split; [intros _; left; exact Hc|reflexivity].
  - apply Qgt_alt in Hc. split; [discriminate|].
    intros [H|[H _]]; exfalso.
    + exact (Qlt_irrefl _ (Qlt_trans _ _ _ H Hc)).
    + rewrite H in Hc. exact (Qlt_irrefl _ Hc).
Qed.

#[global] Instance tuple_le_trans : Transitive tuple_le.
Proof.
  intros x y z Hxy Hyz. apply tuple_le_spec in Hxy, Hyz. apply tuple_le_spec.
  destruct Hxy as [Hxy|[Exy Kxy]], Hyz as [Hyz|[Eyz Kyz]].
  - left. exact (Qlt_trans _ _ _ Hxy Hyz).
  - left. rewrite <- Eyz. exact Hxy.
  - left. rewrite Exy. exact Hyz.
  - right. split; [rewrite Exy; exact Eyz|lia].
Qed.

#[global] Instance tuple_le_total : Total tuple_le.
Proof.
  intros x y. rewrite !tuple_le_spec.
  destruct (Q_dec (fst x) (fst y)) as [[H|H]|H].
  - left. left. exact H.
  - right. left. exact H.
  - destruct (Z.le_ge_cases (snd x) (snd y)) as [Hk|Hk].
    + left. right. split; assumption.
    + right. right. split; [symmetry; exact H|exact Hk].
Qed.

Lemma last_sort_max (l : list (Q * Z)) (best : Q * Z) :
  last (sort l) = Some best ->
  In best l /\ forall p, In p l -> tuple_le p best.
Proof.
  intros Hlast. apply last_Some in Hlast as [l' Hl'].
  pose proof (merge_sort_Permutation tuple_le l) as Hperm. fold (sort l) in Hperm.
  pose proof (StronglySorted_merge_sort tuple_le l) as Hs. fold (sort l) in Hs.
  rewrite Hl' in Hperm, Hs. split.
  - apply list_elem_of_In. rewrite <- Hperm. apply elem_of_app. right. left.
  - intros p Hp. apply list_elem_of_In in Hp. rewrite <- Hperm in Hp.
    apply elem_of_app in Hp as [Hp|Hp].
    + apply (StronglySorted_app_1_elem_of tuple_le l' [best] p best Hs Hp). left.
    + apply list_elem_of_singleton in Hp as ->.
      destruct (tuple_le_total best best); assumption.
Qed.

Lemma last_sort_selects (l : list (Q * Z)) (best : Q * Z) :
  last (sort l) = Some best -> highest_score l best /\ ties_to_largest l best.
Proof.
  intros H. destruct (last_sort_max l best H) as [Hin Hmax].
  split; [split; [exact Hin|]|].
  - intros p Hp. apply Hmax, tuple_le_spec in Hp as [Hp|[Hp _]].
    + apply Qlt_le_weak. exact Hp.
    + rewrite Hp. apply Qle_refl.
  - intros p Hp Heq. apply Hmax, tuple_le_spec in Hp as [Hp|[_ Hp]]; [|exact Hp].
    exfalso. rewrite Heq in Hp. exact (Qlt_irrefl _ Hp).
Qed.

Lemma sort_In (l : list (Q * Z)) (p : Q * Z) : In p (sort l) <-> In p l.
Proof.
  rewrite <- !list_elem_of_In. unfold sort.
  rewrite (merge_sort_Permutation tuple_le l). reflexivity.
Qed.

(** The tuple picked by [silh_scores[-1]] has the highest score of the stored
    table, and among the tuples with that score the largest [k]. *)
Lemma last_sorted_selects (l : list (Q * Z)) (best : Q * Z) :
  last (sort l) = Some best ->
  highest_score (sort l) best /\ ties_to_largest (sort l) best.
Proof.
  intros H. destruct (last_sort_selects l best H) as [[Hin Hmax] Hties].
  split; [split|].
  - apply sort_In. exact Hin.
  - intros p Hp. apply Hmax, sort_In, Hp.
  - intros p Hp. apply Hties, sort_In, Hp.
Qed.

(** ** Reasoning about methods *)

Lemma bind_inv {A B} (c : M A) (f : A -> M B) (s s' : state) (r : outcome B) :
  bind c f s = (r, s') ->
  (exists a s1, c s = (Ok a, s1) /\ f a s1 = (r, s'))
  \/ (exists e, c s = (Raise e, s') /\ r = Raise e).
Proof.
  unfold bind. destruct (c s) as [[a|e] s1]; intros H.
  - left. exists a, s1. split; [reflexivity|exact H].
  - right. exists e. injection H as <- <-. split; reflexivity.
Qed.

Lemma bind_ok_inv {A B} (c : M A) (f : A -> M B) (s s' : state) (b : B) :
  bind c f s = (Ok b, s') ->
  exists a s1, c s = (Ok a, s1) /\ f a s1 = (Ok b, s').
Proof.
  intros H. apply bind_inv in H as [H|(e & _ & H)]; [exact H|discriminate].
Qed.

Lemma bind_ok {A B} (c : M A) (f : A -> M B) (s s1 : state) (a : A) :
  c s = (Ok a, s1) -> bind c f s = f a s1.
Proof. unfold bind. intros ->. reflexivity. Qed.

Lemma bind_raise {A B} (c : M A) (f : A -> M B) (s s1 : state) (e : exn) :
  c s = (Raise e, s1) -> bind c f s = (Raise e, s1).
Proof. unfold bind. intros ->. reflexivity. Qed.

Lemma explanations_loop_state (centers : list Z) (acc : list explanation)
      (s s' : state) (r : outcome (list explanation)) :
  explanations_loop centers acc s = (r, s') -> s' = s.
Proof.
  revert acc. induction centers as [|c centers IH]; intros acc; simpl.
  - unfold ret. intros H. injection H as _ <-. reflexivity.
  - unfold bind, read_some, raise.
    destruct (normalized_attributions (self s)) as [na|]; [|intros H; injection H as _ <-; reflexivity].
    destruct (getitem na c) as [row|]; [|intros H; injection H as _ <-; reflexivity].
    destruct (feature_labels (self s)) as [ls|]; [|intros H; injection H as _ <-; reflexivity].
    apply IH.
Qed.

Lemma explanations_loop_ok_inv (centers : list Z) (acc es : list explanation)
      (s s' : state) (normalized : matrix) (labels : list string) :
  normalized_attributions s.(self) = Some normalized ->
  feature_labels s.(self) = Some labels ->
  explanations_loop centers acc s = (Ok es, s') ->
  exists es', es = acc ++ es' /\ explains normalized labels centers es'.
Proof.
  intros Hn Hl. revert acc. induction centers as [|c centers IH]; intros acc; simpl.
  - unfold ret. intros H. injection H as <- _. exists [].
    split; [rewrite app_nil_r; reflexivity|constructor].
  - unfold bind, read_some, raise. rewrite Hn.
    destruct (getitem normalized c) as [row|] eqn:Hg; [|discriminate].
    rewrite Hl. intros H. destruct (IH _ H) as (es' & -> & Hes').
    exists (zip labels row :: es'). split; [rewrite <- app_assoc; reflexivity|].
    constructor; [exists row; split; [exact Hg|reflexivity]|exact Hes'].
Qed.

Lemma range_candidates (max_clusters : Z) :
  range 2 (Z.max 2 max_clusters + 1) = 2 :: range 3 (Z.max 2 max_clusters + 1).
Proof.
  unfold range. rewrite seqZ_cons by lia. f_equal. f_equal. lia.
Qed.

Lemma range_single (max_clusters : Z) :
  max_clusters <= 2 -> range 2 (Z.max 2 max_clusters + 1) = [2].
Proof.
  intros H. rewrite Z.max_l by lia. reflexivity.
Qed.

Section GenerateProperties.

Variable np_genfromtxt : string -> outcome matrix.
Variable csv_header : string -> outcome (list string).
Variable KMedoids_fit :
  Z -> distance_function -> Z -> Q -> matrix -> outcome (list Z * list Z).

Abbreviation generate' := (generate np_genfromtxt csv_header KMedoids_fit).

(** [generate] never assigns the configuration, and it logs at most one
    clusterer call, with the default distance function. *)
Lemma generate_frame (s s' : state) (r : outcome unit) :
  generate' s = (r, s') ->
  attributions_path s'.(self) = attributions_path s.(self)
  /\ distance s'.(self) = distance s.(self)
  /\ k s'.(self) = k s.(self)
  /\ silh_scores s'.(self) = silh_scores s.(self)
  /\ (fit_calls s' = fit_calls s
      \/ exists a, fit_calls s' = fit_calls s ++ [generate_fit (k s.(self)) a]).
Proof.
  unfold generate, _read_local, _cluster, _get_explanations,
    bind, read, read_some, assign, lift, log_fit, generate_fit; simpl.
  destruct (np_genfromtxt _) as [a|e]; [|intros H; injection H as _ <-; tauto].
  simpl. destruct (csv_header _) as [labels|e]; [|intros H; injection H as _ <-; simpl; tauto].
  simpl. destruct (KMedoids_fit _ _ _ _ _) as [[members centers]|e];
    [|intros H; injection H as _ <-; simpl; repeat split; right; eauto].
  simpl.
  match goal with |- context [explanations_loop ?c ?acc ?st] =>
    destruct (explanations_loop c acc st) as [[es|e] s1] eqn:Hloop;
    apply explanations_loop_state in Hloop; subst s1
  end; intros H; injection H as _ <-; simpl; repeat split; right; eauto.
Qed.

(** A successful [generate]: every derived field comes from one read of the
    file and one clusterer call with the instance's [k]. *)
Lemma generate_ok_inv (s s' : state) :
  generate' s = (Ok tt, s') ->
  exists a labels members centers es,
    np_genfromtxt (attributions_path s.(self)) = Ok a
    /\ csv_header (attributions_path s.(self)) = Ok labels
    /\ KMedoids_fit (k s.(self)) spearman_squared_distance 1000 (Qmake 1 10000)
                    (normalize a) = Ok (members, centers)
    /\ explains (normalize a) labels centers es
    /\ s' = mkState
              (mkGAM (attributions_path s.(self)) (distance s.(self)) (k s.(self))
                     (Some a) (Some (normalize a)) (Some labels) (Some members)
                     (Some (get_subpopulation_sizes members)) (Some es)
                     (silh_scores s.(self)))
              (fit_calls s ++ [generate_fit (k s.(self)) a]).
Proof.
  unfold generate, _read_local, _cluster, _get_explanations,
    bind, read, read_some, assign, lift, log_fit, generate_fit; simpl.
  destruct (np_genfromtxt _) as [a|e] eqn:Ha; [|discriminate].
  simpl. destruct (csv_header _) as [labels|e] eqn:Hl; [|discriminate].
  simpl. destruct (KMedoids_fit _ _ _ _ _) as [[members centers]|e] eqn:Hfit;
    [|discriminate].
  simpl.
  match goal with |- context [explanations_loop ?c ?acc ?st] =>
    destruct (explanations_loop c acc st) as [[es|e] s1] eqn:Hloop
  end; [|discriminate].
  pose proof (explanations_loop_state _ _ _ _ _ Hloop) as ->.
  eapply explanations_loop_ok_inv in Hloop as (es' & -> & Hes);
    [|reflexivity|reflexivity].
  intros H. injection H as <-. simpl.
  exists a, labels, members, centers, es'. repeat split; assumption.
Qed.

(** C1, on the code. On an instance configured with the Kendall-tau
    distance, [generate] either stops before it reaches the clusterer or
    makes one call to it, and that call passes the Spearman-squared
    distance, the default of [_cluster], and not [mergeSortDistance]. *)
Theorem generate_passes_default_distance (s s' : state) (r : outcome unit)
        (Hdistance : distance s.(self) = "kendall_tau"%string)
        (Hrun : generate' s = (r, s')) :
  ((exists e, r = Raise e) /\ fit_calls s' = fit_calls s)
  \/ exists c, fit_calls s' = fit_calls s ++ [c]
               /\ fit_k c = k s.(self)
               /\ fit_dist_func c = spearman_squared_distance
               /\ fit_dist_func c <> mergeSortDistance.
Proof.
  destruct r as [[]|e].
  - right. apply generate_ok_inv in Hrun
      as (a & labels & members & centers & es & _ & _ & _ & _ & ->).
    exists (generate_fit (k s.(self)) a). simpl.
    split; [reflexivity|]. repeat split. discriminate.
  - apply generate_frame in Hrun as (_ & _ & _ & _ & [Hcalls|[a Hcalls]]).
    + left. split; [exists e; reflexivity|exact Hcalls].
    + right. exists (generate_fit (k s.(self)) a).
      split; [exact Hcalls|]. repeat split. discriminate.
Qed.

End GenerateProperties.

Arguments generate_frame {np_genfromtxt csv_header KMedoids_fit} s s' r _.
Arguments generate_ok_inv {np_genfromtxt csv_header KMedoids_fit} s s' _.

Section SelectionProperties.

Variable np_genfromtxt : string -> outcome matrix.
Variable csv_header : string -> outcome (list string).
Variable KMedoids_fit :
  Z -> distance_function -> Z -> Q -> matrix -> outcome (list Z * list Z).
Variable distance_matrix : Type.
Variable pairwise_distances : matrix -> distance_function -> outcome distance_matrix.
Variable silhouette_score : distance_matrix -> list Z -> outcome Q.

Abbreviation generate' := (generate np_genfromtxt csv_header KMedoids_fit).
Abbreviation scan_body' :=
  (scan_body np_genfromtxt csv_header KMedoids_fit distance_matrix
             pairwise_distances silhouette_score).
Abbreviation scan' :=
  (scan np_genfromtxt csv_header KMedoids_fit distance_matrix
        pairwise_distances silhouette_score).
Abbreviation get_optimal_clustering' :=
  (get_optimal_clustering np_genfromtxt csv_header KMedoids_fit distance_matrix
                          pairwise_distances silhouette_score).

Lemma scan_body_unfold (n_cluster : Z) (silh_list : list (Q * Z))
      (my_func : option distance_function) (s : state) :
  scan_body' n_cluster silh_list my_func s
  = match generate' (with_k n_cluster s) with
    | (Raise e, s1) => (Raise e, s1)
    | (Ok _, s1) =>
        match select_my_func (distance s1.(self)) my_func with
        | None => (Raise (UnboundLocalError "my_func"), s1)
        | Some f =>
            match normalized_attributions s1.(self) with
            | None => (Raise TypeError, s1)
            | Some normalized =>
                match pairwise_distances normalized f with
                | Raise e => (Raise e, s1)
                | Ok D =>
                    match subpopulations s1.(self) with
                    | None => (Raise TypeError, s1)
                    | Some labels =>
                        match silhouette_score D labels with
                        | Raise e => (Raise e, s1)
                        | Ok silhouette_avg =>
                            (Ok (silh_list ++ [(silhouette_avg, n_cluster)], Some f), s1)
                        end
                    end
                end
            end
        end
    end.
Proof.
  unfold scan_body, bind, assign, read, read_some, lift, raise, ret, with_k.
  simpl. destruct (generate' _) as [[[]|e] s1]; [|reflexivity].
  destruct (select_my_func _ _) as [f|]; [|reflexivity].
  destruct (normalized_attributions _) as [na|]; [|reflexivity].
  destruct (pairwise_distances _ _) as [D|e]; [|reflexivity].
  destruct (subpopulations _) as [labels|]; [|reflexivity].
  destruct (silhouette_score _ _) as [sc|e]; reflexivity.
Qed.

Lemma scan_body_ok_inv (n_cluster : Z) (silh_list l : list (Q * Z))
      (my_func mf : option distance_function) (s s' : state) :
  scan_body' n_cluster silh_list my_func s = (Ok (l, mf), s') ->
  generate' (with_k n_cluster s) = (Ok tt, s')
  /\ exists silhouette_avg, l = silh_list ++ [(silhouette_avg, n_cluster)].
Proof.
  rewrite scan_body_unfold.
  destruct (generate' _) as [[[]|e] s1]; [|discriminate].
  destruct (select_my_func _ _) as [f|]; [|discriminate].
  destruct (normalized_attributions _) as [na|]; [|discriminate].
  destruct (pairwise_distances _ _) as [D|e]; [|discriminate].
  destruct (subpopulations _) as [labels|]; [|discriminate].
  destruct (silhouette_score _ _) as [sc|e]; [|discriminate].
  intros H. injection H as <- _ <-. split; [reflexivity|]. exists sc. reflexivity.
Qed.

(** A completed scan scored every candidate, in order, and kept the file
    path of the instance. *)
Lemma scan_ok_inv (candidates : list Z) (silh_list out : list (Q * Z))
      (my_func : option distance_function) (s s' : state) :
  scan' candidates silh_list my_func s = (Ok out, s') ->
  attributions_path s'.(self) = attributions_path s.(self)
  /\ exists scored, out = silh_list ++ scored /\ map snd scored = candidates.
Proof.
  revert silh_list my_func s.
  induction candidates as [|n rest IH]; intros silh_list my_func s; simpl.
  - unfold ret. intros H. injection H as <- <-. split; [reflexivity|].
    exists []. split; [rewrite app_nil_r|]; reflexivity.
  - intros H. apply bind_ok_inv in H as ([l mf] & s1 & Hbody & Hrest).
    apply scan_body_ok_inv in Hbody as [Hgen [sc ->]].
    apply generate_frame in Hgen as (Hpath & _).
    simpl in Hrest. apply IH in Hrest as (Hpath' & scored & -> & <-).
    split; [rewrite Hpath', Hpath; reflexivity|].
    exists ((sc, n) :: scored). split; [rewrite <- app_assoc|]; reflexivity.
Qed.

Abbreviation scored_with' :=
  (scored_with KMedoids_fit distance_matrix pairwise_distances silhouette_score).

(** The scan on a readable file: the call made and the score recorded for
    each candidate. *)
Lemma scan_ok_trace (candidates : list Z) (silh_list out : list (Q * Z))
      (my_func : option distance_function) (s s' : state) (a : matrix)
      (f : distance_function) :
  np_genfromtxt (attributions_path s.(self)) = Ok a ->
  (forall mf, select_my_func (distance s.(self)) mf = Some f) ->
  scan' candidates silh_list my_func s = (Ok out, s') ->
  fit_calls s' = fit_calls s ++ map (fun n => generate_fit n a) candidates
  /\ exists scored, out = silh_list ++ scored
                    /\ map snd scored = candidates
                    /\ Forall (scored_with' a f) scored.
Proof.
  revert silh_list my_func s.
  induction candidates as [|n rest IH]; intros silh_list my_func s Ha Hf; simpl.
  - unfold ret. intros H. injection H as <- <-. split; [rewrite app_nil_r; reflexivity|].
    exists []. split; [rewrite app_nil_r; reflexivity|]. split; constructor.
  - intros H. apply bind_ok_inv in H as ([l mf] & s1 & Hbody & Hrest).
    rewrite scan_body_unfold in Hbody.
    destruct (generate' (with_k n s)) as [[[]|e] s2] eqn:Hgen; [|discriminate].
    pose proof (generate_frame _ _ _ Hgen) as (Hpath & Hd & _).
    apply generate_ok_inv in Hgen
      as (a' & labels & members & centers & es & Ha' & _ & Hfit & _ & Es2).
    simpl in Ha', Hfit, Hpath, Hd. rewrite Ha in Ha'. injection Ha' as <-.
    rewrite Hd, Hf in Hbody. rewrite Es2 in Hbody. simpl in Hbody.
    destruct (pairwise_distances _ _) as [D|e] eqn:HD; [|discriminate].
    destruct (silhouette_score _ _) as [sc|e] eqn:Hsc; [|discriminate].
    injection Hbody as <- <- <-. simpl in Hrest.
    apply IH in Hrest as (Hcalls & scored & -> & <- & Hall);
      [|simpl; exact Ha|simpl; exact Hf].
    split; [rewrite Hcalls; simpl; rewrite <- app_assoc; reflexivity|].
    exists ((sc, n) :: scored). split; [rewrite <- app_assoc; reflexivity|].
    split; [reflexivity|]. constructor; [|exact Hall].
    exists members, centers, D. simpl. repeat split; assumption.
Qed.

(** The [if]/[elif] binds [my_func] whatever it held before. *)
Lemma select_my_func_bound (d : string) (f : distance_function) :
  select_my_func d None = Some f -> forall mf, select_my_func d mf = Some f.
Proof.
  unfold select_my_func. intros H mf.
  destruct (String.eqb d "spearman"); [exact H|].
  destruct (String.eqb d "kendall_tau"); [exact H|discriminate].
Qed.

(** A first iteration that completes has found the name of the instance
    among the two it knows. *)
Lemma scan_body_ok_bound (n_cluster : Z) (silh_list l : list (Q * Z))
      (mf : option distance_function) (s s' : state) :
  scan_body' n_cluster silh_list None s = (Ok (l, mf), s') ->
  exists f, select_my_func (distance s.(self)) None = Some f.
Proof.
  rewrite scan_body_unfold.
  destruct (generate' (with_k n_cluster s)) as [[[]|e] s1] eqn:Hgen; [|discriminate].
  apply generate_frame in Hgen as (_ & Hd & _). simpl in Hd. rewrite Hd.
  destruct (select_my_func _ None) as [f|]; [|discriminate].
  intros _. exists f. reflexivity.
Qed.

Lemma get_optimal_clustering_ok_inv (max_clusters : Z) (s s' : state) :
  get_optimal_clustering' max_clusters s = (Ok tt, s') ->
  exists silh_list s1 best,
    scan' (range 2 (Z.max 2 max_clusters + 1)) [] None s = (Ok silh_list, s1)
    /\ last (sort silh_list) = Some best
    /\ generate' (with_choice (sort silh_list) (snd best) s1) = (Ok tt, s').
Proof.
  unfold get_optimal_clustering. intros H.
  apply bind_ok_inv in H as (silh_list & s1 & Hscan & H).
  unfold bind, assign, read_some in H. simpl in H.
  destruct (last (sort silh_list)) as [best|] eqn:Hlast; [|discriminate].
  exists silh_list, s1, best. split; [exact Hscan|]. split; [exact Hlast|].
  exact H.
Qed.

(** C2, amended. When automatic selection completes, every candidate [k]
    of the range has been scored: each entry [(score, k)] of the stored
    table holds the silhouette score of the partition the clusterer computed
    for that [k], measured with the metric the instance's distance name
    selects.  The [k] selected (and used for the final regeneration) is the
    one with the highest of these scores; when two candidates have equal
    scores the larger [k] is chosen. *)
Theorem selected_k_has_highest_score (max_clusters : Z) (s s' : state)
        (Hrun : get_optimal_clustering' max_clusters s = (Ok tt, s')) :
  exists a f scores best,
    np_genfromtxt (attributions_path s.(self)) = Ok a
    /\ select_my_func (distance s.(self)) None = Some f
    /\ silh_scores s'.(self) = Some scores
    /\ map snd scores ≡ₚ range 2 (Z.max 2 max_clusters + 1)
    /\ Forall (scored_with' a f) scores
    /\ highest_score scores best
    /\ ties_to_largest scores best
    /\ k s'.(self) = snd best
    /\ last (fit_calls s') = Some (generate_fit (snd best) a).
Proof.
  apply get_optimal_clustering_ok_inv in Hrun as (l & s1 & best & Hscan & Hlast & Hgen).
  assert (Hf : exists f, select_my_func (distance s.(self)) None = Some f).
  { rewrite range_candidates in Hscan. simpl in Hscan.
    apply bind_ok_inv in Hscan as ([l1 mf] & s2 & Hbody & _).
    eapply scan_body_ok_bound. exact Hbody. }
  destruct Hf as [f Hf].
  pose proof (scan_ok_inv _ _ _ _ _ _ Hscan) as (Hpath & _).
  pose proof (generate_frame _ _ _ Hgen) as (_ & _ & Hk & Hsc & _).
  apply generate_ok_inv in Hgen
    as (a & labels & members & centers & es & Ha & _ & _ & _ & Es').
  simpl in Ha. rewrite Hpath in Ha.
  apply (scan_ok_trace _ _ _ _ _ _ a f Ha (select_my_func_bound _ _ Hf)) in Hscan
    as (_ & scored & E & Hks & Hall).
  simpl in E. subst l.
  destruct (last_sorted_selects scored best Hlast) as [Hhigh Hties].
  exists a, f, (sort scored), best. split; [exact Ha|]. split; [exact Hf|].
  split; [rewrite Hsc; reflexivity|].
  split; [unfold sort; rewrite (merge_sort_Permutation tuple_le scored), Hks; reflexivity|].
  split.
  { apply List.Forall_forall. intros p Hp.
    rewrite List.Forall_forall in Hall. apply Hall, sort_In, Hp. }
  split; [exact Hhigh|]. split; [exact Hties|].
  split; [rewrite Hk; reflexivity|].
  rewrite Es'. simpl. apply last_snoc.
Qed.

(** C4, amended. If the configured distance name is neither "spearman" nor
    "kendall_tau", nothing rejects the name before clustering: automatic
    selection starts by setting [k = 2] and running [generate].  If that
    run raises, its exception is the outcome of the call.  If it succeeds,
    the clusterer has been called with [k = 2] on the normalised matrix,
    and however the call ends, that call stays first among the calls it
    made and the instance holds a membership, sizes and explanations.
    (What the call does once it reaches the name is not part of the
    statement.) *)
Theorem unknown_distance_not_checked_before_clustering
        (max_clusters : Z) (s : state)
        (Hspearman : distance s.(self) <> "spearman"%string)
        (Hkendall : distance s.(self) <> "kendall_tau"%string) :
  (forall e s1, generate' (with_k 2 s) = (Raise e, s1) ->
                get_optimal_clustering' max_clusters s = (Raise e, s1))
  /\ (forall s1, generate' (with_k 2 s) = (Ok tt, s1) ->
        (exists a, fit_calls s1 = fit_calls s ++ [generate_fit 2 a])
        /\ forall r s', get_optimal_clustering' max_clusters s = (r, s') ->
             (exists calls, fit_calls s' = fit_calls s1 ++ calls)
             /\ is_Some (subpopulations s'.(self))
             /\ is_Some (subpopulation_sizes s'.(self))
             /\ is_Some (explanations s'.(self))).
Proof.
  assert (Hunbound : forall d, d = distance s.(self) -> select_my_func d None = None).
  { intros d ->. unfold select_my_func.
    destruct (String.eqb_spec (distance s.(self)) "spearman"); [contradiction|].
    destruct (String.eqb_spec (distance s.(self)) "kendall_tau"); [contradiction|].
    reflexivity. }
  unfold get_optimal_clustering. rewrite range_candidates. simpl.
  split.
  - intros e s1 Hgen.
    erewrite bind_raise; [reflexivity|]. erewrite bind_raise; [reflexivity|].
    rewrite scan_body_unfold, Hgen. reflexivity.
  - intros s1 Hgen.
    pose proof (generate_frame _ _ _ Hgen) as (_ & Hd & Hk & _ & _).
    pose proof (generate_ok_inv _ _ Hgen)
      as (a & labels & members & centers & es & _ & _ & _ & _ & Es1).
    split; [exists a; rewrite Es1; reflexivity|].
    intros r s' Hcall.
    erewrite bind_raise in Hcall;
      [|erewrite bind_raise; [reflexivity|];
        rewrite scan_body_unfold, Hgen, (Hunbound _ Hd); reflexivity].
    injection Hcall as _ <-. rewrite Es1. simpl.
    split; [exists []; rewrite app_nil_r; reflexivity|]. eauto.
Qed.

(** C5, amended. Automatic selection does not reject a candidate range of
    fewer than two values: the requested maximum is raised to at least 2,
    so for a maximum of 2 or less the range is the single candidate 2;
    when the run for that candidate and the final regeneration succeed,
    the call returns normally with [k = 2]. *)
Theorem single_candidate_is_selected (max_clusters : Z) (s s1 s2 : state)
        (l : list (Q * Z)) (mf : option distance_function)
        (Hmax : max_clusters <= 2)
        (Hscan : scan_body' 2 [] None s = (Ok (l, mf), s1))
        (Hfinal : generate' (with_choice l 2 s1) = (Ok tt, s2)) :
  range 2 (Z.max 2 max_clusters + 1) = [2]
  /\ get_optimal_clustering' max_clusters s = (Ok tt, s2)
  /\ k s2.(self) = 2
  /\ exists silhouette_avg, silh_scores s2.(self) = Some [(silhouette_avg, 2)].
Proof.
  split; [apply range_single; exact Hmax|].
  pose proof (scan_body_ok_inv _ _ _ _ _ _ _ Hscan) as [_ [sc El]].
  simpl in El. subst l.
  pose proof (generate_frame _ _ _ Hfinal) as (_ & _ & Hk & Hsc & _).
  split; [|split; [rewrite Hk; reflexivity|exists sc; rewrite Hsc; reflexivity]].
  unfold get_optimal_clustering. rewrite (range_single _ Hmax). simpl.
  erewrite bind_ok; [|erewrite bind_ok; [reflexivity|exact Hscan]].
  exact Hfinal.
Qed.


End SelectionProperties.

(** ** The claims on the sample installation *)

Lemma get_explanations_spec_witness :
  exists es,
    _get_explanations [2; 0] explained_state = (Ok es, explained_state)
    /\ es = [[("height"%string, F 8 10); ("weight"%string, F 2 10)];
             [("height"%string, F 2 10); ("weight"%string, F 8 10)]].
Proof.
  destruct (get_explanations_spec [2; 0] explained_state example_normalized sample_labels)
    as (es & Hrun & _).
  - reflexivity.
  - reflexivity.
  - apply List.Forall_forall. intros c [<-|[<-|[]]]; simpl; lia.
  - repeat constructor.
  - exists es. split; [exact Hrun|].
    vm_compute in Hrun. injection Hrun as <-. reflexivity.
Defined.

(** On the sample file an instance configured with "kendall_tau" clusters
    with the Spearman-squared distance. *)
Lemma generate_passes_default_distance_witness :
  distance (fresh "kendall_tau" 2).(self) = "kendall_tau"%string
  /\ fst (sample_generate (fresh "kendall_tau" 2)) = Ok tt
  /\ map fit_dist_func (fit_calls (snd (sample_generate (fresh "kendall_tau" 2))))
     = [spearman_squared_distance].
Proof.
  split; [reflexivity|]. split; [reflexivity|].
  destruct (generate_passes_default_distance
              sample_genfromtxt sample_csv_header sample_fit
              (fresh "kendall_tau" 2) (snd (sample_generate (fresh "kendall_tau" 2)))
              (Ok tt) eq_refl eq_refl) as [[[e He] _]|(c & H & _ & Hd & _)].
  - discriminate He.
  - rewrite H. simpl. rewrite Hd. reflexivity.
Defined.

(** C2, as stated, fails when two candidates tie: with equal scores for
    [k = 2] and [k = 3] the selection keeps [k = 3]. *)
Lemma tie_selects_larger_k_counterexample :
  ~ (exists scores best,
        silh_scores tied_selection.(self) = Some scores
        /\ highest_score scores best
        /\ ties_to_smallest scores best
        /\ k tied_selection.(self) = snd best).
Proof.
  intros (scores & best & Hs & [Hin _] & Hties & Hk).
  vm_compute in Hs. injection Hs as <-. vm_compute in Hk.
  destruct Hin as [<-|[<-|[]]].
  - discriminate Hk.
  - specialize (Hties (Qmake 1 2, 2) (or_introl eq_refl)).
    simpl in Hties. specialize (Hties (Qeq_refl _)). lia.
Qed.

Lemma selected_k_has_highest_score_witness :
  exists s',
    sample_get_optimal_clustering tied_silhouette_score 3 (fresh "spearman" 2)
    = (Ok tt, s')
    /\ k s'.(self) = 3
    /\ exists scores best,
         silh_scores s'.(self) = Some scores
         /\ Forall (scored_with sample_fit sample_distance_matrix
                      sample_pairwise_distances tied_silhouette_score
                      example_attributions spearman_squared_distance) scores
         /\ highest_score scores best /\ ties_to_largest scores best
         /\ k s'.(self) = snd best.
Proof.
  eexists. split; [vm_compute; reflexivity|]. split; [reflexivity|].
  destruct (selected_k_has_highest_score
              sample_genfromtxt sample_csv_header sample_fit
              sample_distance_matrix sample_pairwise_distances tied_silhouette_score
              3 (fresh "spearman" 2) _ ltac:(vm_compute; reflexivity))
    as (a & f & scores & best & Ha & Hf & Hs & _ & Hall & Hh & Ht & Hk & _).
  vm_compute in Ha. injection Ha as <-. vm_compute in Hf. injection Hf as <-.
  exists scores, best. repeat split; try assumption; apply Hh.
Defined.

(** C4, as stated, fails on the sample file: with the name "cosine" the
    error comes after the clusterer has run, and the membership of that run
    is left on the instance. *)
Lemma unknown_distance_counterexample :
  ~ ((exists e, fst cosine_selection = Raise e)
     /\ fit_calls (snd cosine_selection) = []
     /\ subpopulations (snd cosine_selection).(self) = None
     /\ subpopulation_sizes (snd cosine_selection).(self) = None
     /\ explanations (snd cosine_selection).(self) = None).
Proof.
  intros (_ & Hcalls & _). vm_compute in Hcalls. discriminate Hcalls.
Qed.

(** With an unknown name [generate] itself completes. *)
Example unknown_distance_generate_completes :
  fst (sample_generate (fresh "cosine" 2)) = Ok tt.
Proof. reflexivity. Qed.

Lemma unknown_distance_not_checked_before_clustering_witness :
  distance (fresh "cosine" 2).(self) <> "spearman"%string
  /\ distance (fresh "cosine" 2).(self) <> "kendall_tau"%string
  /\ fst (sample_generate (with_k 2 (fresh "cosine" 2))) = Ok tt
  /\ (exists calls,
        fit_calls (snd cosine_selection)
        = generate_fit 2 example_attributions :: calls)
  /\ is_Some (subpopulations (snd cosine_selection).(self)).
Proof.
  split; [discriminate|]. split; [discriminate|]. split; [reflexivity|].
  destruct (unknown_distance_not_checked_before_clustering
              sample_genfromtxt sample_csv_header sample_fit
              sample_distance_matrix sample_pairwise_distances sample_silhouette_score
              2 (fresh "cosine" 2) ltac:(discriminate) ltac:(discriminate))
    as [_ Hok].
  destruct (Hok (snd (sample_generate (with_k 2 (fresh "cosine" 2)))) eq_refl)
    as (_ & Hend).
  destruct (Hend (fst cosine_selection) (snd cosine_selection))
    as ([calls Hcalls] & Hm & _).
  - unfold cosine_selection, sample_get_optimal_clustering.
    apply surjective_pairing.
  - split; [exists calls; rewrite Hcalls; reflexivity|exact Hm].
Defined.

(** C5, as stated, fails on the sample file: with a maximum of 2 the single
    candidate is scored and the call returns. *)
Lemma single_candidate_counterexample :
  ~ (exists e, fst (sample_get_optimal_clustering sample_silhouette_score 2
                      (fresh "spearman" 2)) = Raise e).
Proof.
  intros [e H]. vm_compute in H. discriminate H.
Qed.

Lemma single_candidate_is_selected_witness :
  exists s2,
    1 <= 2
    /\ sample_get_optimal_clustering sample_silhouette_score 1 (fresh "spearman" 5)
       = (Ok tt, s2)
    /\ k s2.(self) = 2.
Proof.
  edestruct (single_candidate_is_selected
               sample_genfromtxt sample_csv_header sample_fit
               sample_distance_matrix sample_pairwise_distances sample_silhouette_score
               1 (fresh "spearman" 5)) as (_ & Hrun & Hk & _).
  - lia.
  - vm_compute. reflexivity.
  - vm_compute. reflexivity.
  - eexists. split; [lia|]. split; [exact Hrun|exact Hk].
Defined.


(** * Further properties of the driver *)

(** ** [normalize]: the range of the entries *)

Lemma Qabs_le_Qsum (qs : list Q) (q : Q) :
  In q qs -> (Qabs q <= Qsum (map Qabs qs) 0)%Q.
Proof.
  induction qs as [|q' qs IH]; intros Hq; [inversion Hq|].
  unfold Qsum. simpl. fold (Qsum (map Qabs qs) (0 + Qabs q')%Q).
  rewrite Qsum_acc. pose proof (Qsum_abs_nonneg qs) as Hs.
  pose proof (Qabs_nonneg q') as Hq'.
  destruct Hq as [->|Hq].
  - rewrite <- (Qplus_0_r (Qabs q)) at 1. apply Qplus_le_compat; [|exact Hs].
    rewrite Qplus_0_l. apply Qle_refl.
  - apply (Qle_trans _ _ _ (IH Hq)).
    rewrite <- (Qplus_0_l (Qsum (map Qabs qs) 0)) at 1.
    apply Qplus_le_compat; [|apply Qle_refl].
    rewrite Qplus_0_l. exact Hq'.
Qed.

(** A row with a nonzero total is a row of numbers, and its normalised form
    is the row of the quotients. *)
Lemma nonzero_total_inv (row : list float) :
  nonzero_total row = true ->
  exists qs t, row = map Fin qs /\ t = Qsum (map Qabs qs) 0 /\ (0 < t)%Q
               /\ normalize_row row = map Fin (map (fun q => Qabs q / t)%Q qs).
Proof.
  unfold nonzero_total. destruct (abs_total row) as [t| |] eqn:Ht; try discriminate.
  intros Hnz. apply negb_true_iff in Hnz.
  pose proof Ht as Ht'. unfold abs_total, row_sum in Ht'.
  destruct (abs_sum_fin_inv _ _ _ Ht') as (qs & -> & Et).
  exists qs, t. split; [reflexivity|]. split; [exact Et|]. split.
  - pose proof (Qsum_abs_nonneg qs) as Hge. rewrite <- Et in Hge.
    apply Qle_lteq in Hge. destruct Hge as [H|H]; [exact H|].
    exfalso. apply Qeq_bool_neq in Hnz. apply Hnz. symmetry. exact H.
  - apply normalize_row_fin; assumption.
Qed.

(** X1. Every entry of a normalised row with a nonzero total is a number
    between 0 and 1. *)
Theorem normalize_entries_in_unit_interval (attributions : matrix)
        (Hnonzero : forallb nonzero_total attributions = true) :
  Forall (Forall (fun x => exists q, x = Fin q /\ (0 <= q)%Q /\ (q <= 1)%Q))
         (normalize attributions).
Proof.
  rewrite normalize_rows. apply List.Forall_forall. intros nrow Hin.
  apply List.in_map_iff in Hin as (row & <- & Hrow).
  rewrite List.forallb_forall in Hnonzero.
  destruct (nonzero_total_inv row (Hnonzero row Hrow)) as (qs & t & -> & Et & Hpos & ->).
  apply List.Forall_forall. intros y Hy.
  apply List.in_map_iff in Hy as (q' & <- & Hq').
  apply List.in_map_iff in Hq' as (q & <- & Hq).
  eexists. split; [reflexivity|]. split.
  - apply Qle_shift_div_l; [exact Hpos|]. rewrite Qmult_0_l. apply Qabs_nonneg.
  - apply Qle_shift_div_r; [exact Hpos|]. rewrite Qmult_1_l.
    rewrite Et. apply Qabs_le_Qsum. exact Hq.
Qed.

Lemma normalize_entries_in_unit_interval_witness :
  forallb nonzero_total example_attributions = true
  /\ Forall (Forall (fun x => exists q, x = Fin q /\ (0 <= q)%Q /\ (q <= 1)%Q))
            (normalize example_attributions).
Proof.
  split; [reflexivity|].
  apply (normalize_entries_in_unit_interval example_attributions). reflexivity.
Defined.


(** ** [get_subpopulation_sizes]: what it depends on and what it omits *)

Lemma Counter_lookup (l : list Z) (i : Z) :
  Counter l !! i
  = if decide (i ∈ l) then Some (count_occ Z.eq_dec l i) else None.
Proof.
  pose proof (Counter_dom l i) as Hdom.
  pose proof (Counter_count l i) as Hcount.
  destruct (Counter l !! i) as [v|] eqn:Hl; simpl in Hcount.
  - rewrite decide_True by (apply Hdom; eauto). congruence.
  - rewrite decide_False; [reflexivity|].
    intros Hin. apply Hdom in Hin as [v Hv]. discriminate Hv.
Qed.

Lemma sizes_are_counts (l : list Z) :
  get_subpopulation_sizes l
  = map (count_occ Z.eq_dec l) (sorted_keys (Counter l)).
Proof.
  unfold get_subpopulation_sizes. apply map_ext. intros i. apply Counter_count.
Qed.

Lemma seqZ_ascending (m n : Z) : StronglySorted Z.lt (seqZ m n).
Proof.
  destruct (Z.le_gt_cases n 0) as [Hn|Hn]; [rewrite seqZ_nil by lia; constructor|].
  rewrite <- (Z2Nat.id n) by lia. generalize (Z.to_nat n) as j. clear Hn n.
  intros j. revert m. induction j as [|j IH]; intros m; [constructor|].
  rewrite seqZ_cons by lia.
  replace (Z.pred (Z.of_nat (S j))) with (Z.of_nat j) by lia.
  constructor; [apply IH|].
  apply List.Forall_forall. intros x Hx.
  apply list_elem_of_In, elem_of_seqZ in Hx. lia.
Qed.

(** X3. The sizes depend on the membership array only through how often each
    cluster id occurs: rearranging the array does not change them. *)
Theorem get_subpopulation_sizes_permutation (l l' : list Z)
        (Hperm : Permutation l l') :
  get_subpopulation_sizes l = get_subpopulation_sizes l'.
Proof.
  assert (Hmap : Counter l = Counter l').
  { apply map_eq. intros i. rewrite !Counter_lookup.
    assert (Hc : count_occ Z.eq_dec l i = count_occ Z.eq_dec l' i)
      by (apply Permutation_count_occ; exact Hperm).
    destruct (decide (i ∈ l)) as [Hi|Hi], (decide (i ∈ l')) as [Hi'|Hi'].
    - rewrite Hc. reflexivity.
    - exfalso. apply Hi'. rewrite <- Hperm. exact Hi.
    - exfalso. apply Hi. rewrite Hperm. exact Hi'.
    - reflexivity. }
  unfold get_subpopulation_sizes. rewrite Hmap. reflexivity.
Qed.

Lemma get_subpopulation_sizes_permutation_witness :
  Permutation [0; 1; 0; 0] [1; 0; 0; 0]
  /\ get_subpopulation_sizes [0; 1; 0; 0] = get_subpopulation_sizes [1; 0; 0; 0].
Proof.
  assert (H : Permutation [0; 1; 0; 0] [1; 0; 0; 0]) by apply perm_swap.
  split; [exact H|].
  apply (get_subpopulation_sizes_permutation [0; 1; 0; 0] [1; 0; 0; 0] H).
Defined.

(** X4. Every reported size is at least 1: a cluster id without members gets
    no entry, it is never reported with size 0. *)
Theorem get_subpopulation_sizes_positive (subpopulations : list Z) :
  Forall (fun n => (1 <= n)%nat) (get_subpopulation_sizes subpopulations).
Proof.
  rewrite sizes_are_counts. apply List.Forall_forall. intros n Hn.
  apply List.in_map_iff in Hn as (i & <- & Hi).
  apply list_elem_of_In, sorted_keys_elem, Counter_dom, list_elem_of_In in Hi.
  apply (count_occ_In Z.eq_dec) in Hi. lia.
Qed.

(** X5. When the ids present are exactly 0, ..., n-1, the entry at position
    [j] is the number of members of cluster [j]. *)
Theorem get_subpopulation_sizes_by_position (subpopulations : list Z) (n : Z)
        (Hids : forall i, In i subpopulations <-> 0 <= i < n) :
  get_subpopulation_sizes subpopulations
  = map (count_occ Z.eq_dec subpopulations) (seqZ 0 n).
Proof.
  rewrite sizes_are_counts. f_equal.
  apply (StronglySorted_unique_strong Z.lt).
  - intros x y _ _ Hxy Hyx. lia.
  - apply sorted_keys_ascending.
  - apply seqZ_ascending.
  - apply NoDup_Permutation; [apply sorted_keys_NoDup|apply NoDup_seqZ|].
    intros i. rewrite sorted_keys_elem, Counter_dom, elem_of_seqZ.
    rewrite list_elem_of_In, Hids. lia.
Qed.

Lemma get_subpopulation_sizes_by_position_witness :
  (forall i, In i [0; 1; 0; 0] <-> 0 <= i < 2)
  /\ get_subpopulation_sizes [0; 1; 0; 0] = [3%nat; 1%nat].
Proof.
  assert (H : forall i, In i [0; 1; 0; 0] <-> 0 <= i < 2).
  { intros i. simpl. lia. }
  split; [exact H|].
  rewrite (get_subpopulation_sizes_by_position [0; 1; 0; 0] 2 H). reflexivity.
Defined.

(** ** [_get_explanations]: indexing and pairing *)

Lemma getitem_in_range {A} (a : list A) (i : Z) :
  - Z.of_nat (length a) <= i < Z.of_nat (length a) -> is_Some (getitem a i).
Proof.
  intros Hi. unfold getitem.
  destruct ((0 <=? i) && (i <? Z.of_nat (length a))) eqn:Hpos.
  - apply andb_true_iff in Hpos as [H1 H2].
    apply Z.leb_le in H1. apply Z.ltb_lt in H2.
    apply lookup_lt_is_Some_2. lia.
  - assert (Hneg : (- Z.of_nat (length a) <=? i) && (i <? 0) = true).
    { apply andb_true_iff. rewrite Z.leb_le, Z.ltb_lt.
      apply andb_false_iff in Hpos as [H|H];
        [apply Z.leb_gt in H|apply Z.ltb_ge in H]; lia. }
    rewrite Hneg. apply lookup_lt_is_Some_2.
    apply andb_true_iff in Hneg as [H1 H2].
    apply Z.leb_le in H1. apply Z.ltb_lt in H2. lia.
Qed.

Lemma getitem_out_of_range {A} (a : list A) (i : Z) :
  i < - Z.of_nat (length a) \/ Z.of_nat (length a) <= i -> getitem a i = None.
Proof.
  intros Hi. unfold getitem.
  assert (H1 : (0 <=? i) && (i <? Z.of_nat (length a)) = false).
  { apply andb_false_iff. rewrite Z.leb_gt, Z.ltb_ge. lia. }
  assert (H2 : (- Z.of_nat (length a) <=? i) && (i <? 0) = false).
  { apply andb_false_iff. rewrite Z.leb_gt, Z.ltb_ge. lia. }
  rewrite H1, H2. reflexivity.
Qed.

Lemma getitem_negative {A} (a : list A) (i : Z) :
  0 <= i < Z.of_nat (length a) ->
  getitem a (i - Z.of_nat (length a)) = getitem a i.
Proof.
  intros Hi. unfold getitem.
  assert (H1 : (0 <=? i) && (i <? Z.of_nat (length a)) = true).
  { apply andb_true_iff. rewrite Z.leb_le, Z.ltb_lt. lia. }
  assert (H2 : (0 <=? i - Z.of_nat (length a))
               && (i - Z.of_nat (length a) <? Z.of_nat (length a)) = false).
  { apply andb_false_iff. rewrite Z.leb_gt, Z.ltb_ge. lia. }
  assert (H3 : (- Z.of_nat (length a) <=? i - Z.of_nat (length a))
               && (i - Z.of_nat (length a) <? 0) = true).
  { apply andb_true_iff. rewrite Z.leb_le, Z.ltb_lt. lia. }
  rewrite H1, H2, H3. f_equal. lia.
Qed.

(** The loop on an instance that holds a matrix and labels: it visits the
    medoid indices in order and stops at the first one that is no index. *)
Lemma explanations_loop_run (centers : list Z) (acc : list explanation)
      (s : state) (normalized : matrix) (labels : list string) :
  normalized_attributions s.(self) = Some normalized ->
  feature_labels s.(self) = Some labels ->
  explanations_loop centers acc s
  = match mapM (getitem normalized) centers with
    | Some rows => (Ok (acc ++ map (zip labels) rows), s)
    | None => (Raise IndexError, s)
    end.
Proof.
  intros Hn Hl. revert acc. induction centers as [|c centers IH]; intros acc.
  - simpl. rewrite app_nil_r. reflexivity.
  - simpl. unfold bind at 1, read_some at 1. rewrite Hn.
    destruct (getitem normalized c) as [row|]; simpl; [|reflexivity].
    unfold bind at 1, read_some at 1. rewrite Hl. rewrite IH.
    destruct (mapM (getitem normalized) centers) as [rows|]; simpl; [|reflexivity].
    rewrite <- app_assoc. reflexivity.
Qed.

Lemma combine_fst_take {A B} (l : list A) (k : list B) :
  map fst (combine l k) = take (length k) l.
Proof.
  revert k. induction l as [|x l IH]; intros [|y k]; simpl; try reflexivity.
  f_equal. apply IH.
Qed.

Lemma combine_snd_take {A B} (l : list A) (k : list B) :
  map snd (combine l k) = take (length l) k.
Proof.
  revert k. induction l as [|x l IH]; intros [|y k]; simpl; try reflexivity.
  f_equal. apply IH.
Qed.

(** X6. If any medoid index lies outside [-n, n) for a matrix of [n] rows,
    [_get_explanations] raises IndexError, returns no explanation and leaves
    the instance as it was. *)
Theorem get_explanations_index_error (centers : list Z) (c : Z) (s : state)
        (normalized : matrix) (labels : list string)
        (Hnorm : normalized_attributions s.(self) = Some normalized)
        (Hlabels : feature_labels s.(self) = Some labels)
        (Hin : In c centers)
        (Hout : c < - Z.of_nat (length normalized)
                \/ Z.of_nat (length normalized) <= c) :
  _get_explanations centers s = (Raise IndexError, s).
Proof.
  unfold _get_explanations.
  rewrite (explanations_loop_run centers [] s normalized labels Hnorm Hlabels).
  rewrite (mapM_None_2 (getitem normalized) centers); [reflexivity|].
  apply Exists_exists. exists c. split; [apply list_elem_of_In; exact Hin|].
  apply getitem_out_of_range. exact Hout.
Qed.

Lemma get_explanations_index_error_witness :
  _get_explanations [0; 4] explained_state = (Raise IndexError, explained_state).
Proof.
  apply (get_explanations_index_error [0; 4] 4 explained_state
           example_normalized sample_labels eq_refl eq_refl).
  - simpl. tauto.
  - right. simpl. lia.
Defined.

(** X7. For medoid indices in [-n, n), each explanation is as long as the
    shorter of the label list and the row: surplus labels or surplus columns
    are dropped without an error. *)
Theorem get_explanations_truncates (centers : list Z) (s : state)
        (normalized : matrix) (labels : list string)
        (Hnorm : normalized_attributions s.(self) = Some normalized)
        (Hlabels : feature_labels s.(self) = Some labels)
        (Hvalid : Forall (fun c => - Z.of_nat (length normalized) <= c
                                   < Z.of_nat (length normalized)) centers) :
  exists es,
    _get_explanations centers s = (Ok es, s)
    /\ Forall2 (fun c e =>
                  exists row, getitem normalized c = Some row
                              /\ length e = Nat.min (length labels) (length row)
                              /\ map fst e = take (length row) labels
                              /\ map snd e = take (length labels) row)
               centers es.
Proof.
  unfold _get_explanations.
  rewrite (explanations_loop_run centers [] s normalized labels Hnorm Hlabels).
  destruct (mapM (getitem normalized) centers) as [rows|] eqn:Hrows.
  - exists (map (zip labels) rows). split; [reflexivity|].
    apply mapM_Some_1 in Hrows. clear Hvalid.
    induction Hrows as [|c row centers rows Hrow _ IH]; simpl; constructor.
    + exists row. split; [exact Hrow|]. unfold zip.
      split; [apply length_combine|].
      split; [apply combine_fst_take|apply combine_snd_take].
    + exact IH.
  - exfalso. apply mapM_None_1, Exists_exists in Hrows as (c & Hc & Hnone).
    rewrite Forall_forall in Hvalid.
    destruct (getitem_in_range normalized c (Hvalid c Hc)) as [row Hrow].
    congruence.
Qed.

Lemma get_explanations_truncates_witness :
  exists es,
    _get_explanations [-1] explained_state = (Ok es, explained_state)
    /\ map (@length (string * float)) es = [2%nat].
Proof.
  destruct (get_explanations_truncates [-1] explained_state
              example_normalized sample_labels eq_refl eq_refl)
    as (es & Hrun & _).
  - apply List.Forall_forall. intros c [<-|[]]. simpl. lia.
  - exists es. split; [exact Hrun|].
    vm_compute in Hrun. injection Hrun as <-. reflexivity.
Defined.

(** X8. A negative medoid index counts from the end of the matrix: the index
    [c - n] gives the explanation of row [c]. *)
Theorem get_explanations_negative_index (centers : list Z) (s : state)
        (normalized : matrix) (labels : list string)
        (Hnorm : normalized_attributions s.(self) = Some normalized)
        (Hlabels : feature_labels s.(self) = Some labels)
        (Hvalid : Forall (fun c => 0 <= c < Z.of_nat (length normalized)) centers) :
  _get_explanations (map (fun c => c - Z.of_nat (length normalized)) centers) s
  = _get_explanations centers s.
Proof.
  unfold _get_explanations.
  rewrite !(explanations_loop_run _ [] s normalized labels Hnorm Hlabels).
  replace (mapM (getitem normalized)
                (map (fun c => c - Z.of_nat (length normalized)) centers))
    with (mapM (getitem normalized) centers); [reflexivity|].
  induction centers as [|c centers IH]; [reflexivity|].
  apply Forall_cons in Hvalid as [Hc Hrest]. simpl.
  rewrite (getitem_negative normalized c Hc), (IH Hrest). reflexivity.
Qed.

Lemma get_explanations_negative_index_witness :
  _get_explanations (map (fun c => c - 4) [0; 2]) explained_state
  = _get_explanations [0; 2] explained_state.
Proof.
  apply (get_explanations_negative_index [0; 2] explained_state
           example_normalized sample_labels eq_refl eq_refl).
  apply List.Forall_forall. intros c [<-|[<-|[]]]; simpl; lia.
Defined.

(** ** [generate]: where it can stop and what it leaves behind *)

Section GenerateBehaviour.

Variable np_genfromtxt : string -> outcome matrix.
Variable csv_header : string -> outcome (list string).
Variable KMedoids_fit :
  Z -> distance_function -> Z -> Q -> matrix -> outcome (list Z * list Z).

Abbreviation generate' := (generate np_genfromtxt csv_header KMedoids_fit).

(** The four places where [generate] can stop, with the instance each
    leaves, and its normal end. *)
Lemma generate_unfold (s : state) :
  generate' s
  = let g := s.(self) in
    match np_genfromtxt (attributions_path g) with
    | Raise e => (Raise e, s)
    | Ok a =>
        let g1 := set_attributions a g in
        match csv_header (attributions_path g) with
        | Raise e => (Raise e, mkState g1 s.(fit_calls))
        | Ok labels =>
            let g2 := set_normalized_attributions (normalize a)
                        (set_feature_labels labels g1) in
            let calls := s.(fit_calls) ++ [generate_fit (k g) a] in
            match KMedoids_fit (k g) spearman_squared_distance 1000
                               (Qmake 1 10000) (normalize a) with
            | Raise e => (Raise e, mkState g2 calls)
            | Ok (members, centers) =>
                let g3 := set_subpopulation_sizes (get_subpopulation_sizes members)
                            (set_subpopulations members g2) in
                match mapM (getitem (normalize a)) centers with
                | None => (Raise IndexError, mkState g3 calls)
                | Some rows =>
                    (Ok tt, mkState (set_explanations (map (zip labels) rows) g3) calls)
                end
            end
        end
    end.
Proof.
  unfold generate, _read_local, _cluster, _get_explanations,
    bind, read, read_some, assign, lift, log_fit, generate_fit; simpl.
  destruct (np_genfromtxt _) as [a|e]; [|reflexivity].
  simpl. destruct (csv_header _) as [labels|e]; [|reflexivity].
  simpl. destruct (KMedoids_fit _ _ _ _ _) as [[members centers]|e]; [|reflexivity].
  simpl.
  match goal with |- context [explanations_loop ?c ?acc ?st] =>
    rewrite (explanations_loop_run c acc st (normalize a) labels eq_refl eq_refl)
  end.
  destruct (mapM _ centers) as [rows|]; reflexivity.
Qed.

(** X9. A failed read stops [generate] with the reader's exception and
    without a call to the clusterer: if the matrix cannot be read the
    instance is untouched; if only the header cannot be read, the new
    matrix is stored and every other field keeps its former value. *)
Theorem generate_read_failure (s : state) :
  (forall e, np_genfromtxt (attributions_path s.(self)) = Raise e ->
             generate' s = (Raise e, s))
  /\ (forall a e, np_genfromtxt (attributions_path s.(self)) = Ok a ->
                  csv_header (attributions_path s.(self)) = Raise e ->
                  generate' s
                  = (Raise e, mkState (set_attributions a s.(self)) s.(fit_calls))).
Proof.
  split.
  - intros e He. rewrite generate_unfold. simpl. rewrite He. reflexivity.
  - intros a e Ha He. rewrite generate_unfold. simpl. rewrite Ha, He. reflexivity.
Qed.

(** X10. When the clusterer raises, [generate] ends with its exception; the
    matrix, its normalised form and the labels are those of the new read,
    while membership, sizes and explanations are still those the instance
    held before the call. *)
Theorem generate_clusterer_failure (s : state) (a : matrix)
        (labels : list string) (e : exn)
        (Ha : np_genfromtxt (attributions_path s.(self)) = Ok a)
        (Hl : csv_header (attributions_path s.(self)) = Ok labels)
        (Hfit : KMedoids_fit (k s.(self)) spearman_squared_distance 1000
                             (Qmake 1 10000) (normalize a) = Raise e) :
  exists s',
    generate' s = (Raise e, s')
    /\ attributions s'.(self) = Some a
    /\ normalized_attributions s'.(self) = Some (normalize a)
    /\ feature_labels s'.(self) = Some labels
    /\ subpopulations s'.(self) = subpopulations s.(self)
    /\ subpopulation_sizes s'.(self) = subpopulation_sizes s.(self)
    /\ explanations s'.(self) = explanations s.(self)
    /\ fit_calls s' = fit_calls s ++ [generate_fit (k s.(self)) a].
Proof.
  eexists. rewrite generate_unfold. simpl. rewrite Ha, Hl, Hfit.
  split; [reflexivity|]. simpl. repeat split.
Qed.

(** X11. When the clusterer answers with a medoid index that is no row of
    the matrix, [generate] raises IndexError after it has stored the new
    membership and sizes: the explanations on the instance are still the
    former ones. *)
Theorem generate_bad_medoid (s : state) (a : matrix) (labels : list string)
        (members centers : list Z) (c : Z)
        (Ha : np_genfromtxt (attributions_path s.(self)) = Ok a)
        (Hl : csv_header (attributions_path s.(self)) = Ok labels)
        (Hfit : KMedoids_fit (k s.(self)) spearman_squared_distance 1000
                             (Qmake 1 10000) (normalize a) = Ok (members, centers))
        (Hin : In c centers)
        (Hout : c < - Z.of_nat (length a) \/ Z.of_nat (length a) <= c) :
  exists s',
    generate' s = (Raise IndexError, s')
    /\ subpopulations s'.(self) = Some members
    /\ subpopulation_sizes s'.(self) = Some (get_subpopulation_sizes members)
    /\ explanations s'.(self) = explanations s.(self).
Proof.
  eexists. rewrite generate_unfold. simpl. rewrite Ha, Hl, Hfit.
  rewrite (mapM_None_2 (getitem (normalize a)) centers).
  - split; [reflexivity|]. simpl. repeat split.
  - apply Exists_exists. exists c. split; [apply list_elem_of_In; exact Hin|].
    apply getitem_out_of_range. rewrite normalize_rows, length_map. exact Hout.
Qed.

End GenerateBehaviour.

Lemma generate_read_failure_witness :
  sample_generate missing_file = (Raise (ExternalError "OSError"), missing_file).
Proof.
  apply (proj1 (generate_read_failure sample_genfromtxt sample_csv_header sample_fit
                                      missing_file)).
  reflexivity.
Defined.

Lemma generate_clusterer_failure_witness :
  exists s',
    sample_generate (fresh "spearman" 7) = (Raise (ExternalError "ValueError"), s')
    /\ normalized_attributions s'.(self) = Some (normalize example_attributions)
    /\ subpopulations s'.(self) = None.
Proof.
  destruct (generate_clusterer_failure sample_genfromtxt sample_csv_header sample_fit
              (fresh "spearman" 7) example_attributions sample_labels
              (ExternalError "ValueError") eq_refl eq_refl eq_refl)
    as (s' & Hrun & _ & Hn & _ & Hs & _).
  exists s'. split; [exact Hrun|]. split; [exact Hn|exact Hs].
Defined.

Lemma generate_bad_medoid_witness :
  exists s',
    generate sample_genfromtxt sample_csv_header wild_fit (fresh "spearman" 2)
    = (Raise IndexError, s')
    /\ subpopulations s'.(self) = Some [0; 0; 1; 1]
    /\ explanations s'.(self) = None.
Proof.
  destruct (generate_bad_medoid sample_genfromtxt sample_csv_header wild_fit
              (fresh "spearman" 2) example_attributions sample_labels
              [0; 0; 1; 1] [0; 9] 9 eq_refl eq_refl eq_refl)
    as (s' & Hrun & Hs & _ & He).
  - simpl. tauto.
  - right. simpl. lia.
  - exists s'. split; [exact Hrun|]. split; [exact Hs|exact He].
Defined.

(** ** [generate]: what a successful run guarantees *)

Lemma getitem_In {A} (a : list A) (i : Z) (x : A) :
  getitem a i = Some x -> In x a.
Proof.
  unfold getitem. intros H. apply list_elem_of_In.
  destruct ((0 <=? i) && (i <? Z.of_nat (length a)));
    [eapply list_elem_of_lookup_2; exact H|].
  destruct ((- Z.of_nat (length a) <=? i) && (i <? 0));
    [eapply list_elem_of_lookup_2; exact H|discriminate].
Qed.

Lemma sizes_sum (members : list Z) :
  sum_list (get_subpopulation_sizes members) = length members.
Proof.
  rewrite sizes_are_counts. apply sum_count_occ; [apply sorted_keys_NoDup|].
  intros i Hi. apply sorted_keys_elem, Counter_dom. exact Hi.
Qed.

Section GenerateSuccess.

Variable np_genfromtxt : string -> outcome matrix.
Variable csv_header : string -> outcome (list string).
Variable KMedoids_fit :
  Z -> distance_function -> Z -> Q -> matrix -> outcome (list Z * list Z).

Abbreviation generate' := (generate np_genfromtxt csv_header KMedoids_fit).

(** X12. After a successful [generate] the derived fields fit together:
    the normalised matrix is [normalize] of the stored matrix, the sizes sum
    to the number of membership entries, and there is one explanation per
    medoid the clusterer returned. *)
Theorem generate_success_consistent (s s' : state)
        (Hrun : generate' s = (Ok tt, s')) :
  exists a members centers sizes es,
    KMedoids_fit (k s.(self)) spearman_squared_distance 1000 (Qmake 1 10000)
                 (normalize a) = Ok (members, centers)
    /\ attributions s'.(self) = Some a
    /\ normalized_attributions s'.(self) = Some (normalize a)
    /\ subpopulations s'.(self) = Some members
    /\ subpopulation_sizes s'.(self) = Some sizes
    /\ sum_list sizes = length members
    /\ explanations s'.(self) = Some es
    /\ length es = length centers.
Proof.
  rewrite generate_unfold in Hrun. simpl in Hrun.
  destruct (np_genfromtxt _) as [a|e]; [|discriminate].
  destruct (csv_header _) as [labels|e]; [|discriminate].
  destruct (KMedoids_fit _ _ _ _ _) as [[members centers]|e] eqn:Hfit; [|discriminate].
  destruct (mapM _ centers) as [rows|] eqn:Hrows; [|discriminate].
  injection Hrun as <-. simpl.
  exists a, members, centers, (get_subpopulation_sizes members),
    (map (zip labels) rows).
  split; [exact Hfit|]. repeat split.
  - apply sizes_sum.
  - rewrite length_map. symmetry. eapply length_mapM. exact Hrows.
Qed.

(** X13. After a successful [generate] on a file whose rows are as long as
    the header, every explanation lists all the labels, in order, and its
    weights are one whole row of the normalised matrix. *)
Theorem generate_explanations_are_rows (s s' : state) (a : matrix)
        (labels : list string)
        (Hrun : generate' s = (Ok tt, s'))
        (Ha : np_genfromtxt (attributions_path s.(self)) = Ok a)
        (Hl : csv_header (attributions_path s.(self)) = Ok labels)
        (Hcols : Forall (fun row => length row = length labels) a) :
  exists es,
    explanations s'.(self) = Some es
    /\ Forall (fun e => map fst e = labels /\ In (map snd e) (normalize a)) es.
Proof.
  rewrite generate_unfold in Hrun. simpl in Hrun. rewrite Ha, Hl in Hrun.
  destruct (KMedoids_fit _ _ _ _ _) as [[members centers]|e]; [|discriminate].
  destruct (mapM _ centers) as [rows|] eqn:Hrows; [|discriminate].
  injection Hrun as <-. simpl. eexists. split; [reflexivity|].
  apply mapM_Some_1 in Hrows.
  apply List.Forall_forall. intros e He.
  apply List.in_map_iff in He as (nrow & <- & Hnrow).
  assert (Hin : In nrow (normalize a)).
  { apply list_elem_of_In in Hnrow. clear -Hrows Hnrow. induction Hrows as [|c r cs rs Hc _ IH]; [inversion Hnrow|].
    apply elem_of_cons in Hnrow as [->|Hr]; [eapply getitem_In; exact Hc|].
    apply IH. exact Hr. }
  assert (Hlen : length nrow = length labels).
  { pose proof Hin as Hin'. rewrite normalize_rows in Hin'.
    apply List.in_map_iff in Hin' as (row & <- & Hrow).
    rewrite List.Forall_forall in Hcols. rewrite <- (Hcols row Hrow).
    unfold normalize_row. apply length_map. }
  unfold zip. rewrite combine_fst_take, combine_snd_take.
  rewrite Hlen, firstn_all. rewrite <- Hlen, firstn_all.
  split; [reflexivity|exact Hin].
Qed.

End GenerateSuccess.

Lemma generate_success_consistent_witness :
  exists s',
    sample_generate (fresh "spearman" 2) = (Ok tt, s')
    /\ exists sizes es,
         subpopulation_sizes s'.(self) = Some sizes /\ sum_list sizes = 4%nat
         /\ explanations s'.(self) = Some es /\ length es = 2%nat.
Proof.
  eexists. split; [vm_compute; reflexivity|].
  destruct (generate_success_consistent sample_genfromtxt sample_csv_header sample_fit
              (fresh "spearman" 2) _ ltac:(vm_compute; reflexivity))
    as (a & members & centers & sizes & es & Hfit & Ha & _ & Hm & Hs & Hsum & He & Hlen).
  exists sizes, es. vm_compute in Ha. injection Ha as <-.
  vm_compute in Hfit. injection Hfit as <- <-.
  repeat split; assumption.
Defined.

Lemma generate_explanations_are_rows_witness :
  exists s' es,
    sample_generate (fresh "spearman" 2) = (Ok tt, s')
    /\ explanations s'.(self) = Some es
    /\ Forall (fun e => map fst e = sample_labels
                        /\ In (map snd e) (normalize example_attributions)) es.
Proof.
  destruct (generate_explanations_are_rows
              sample_genfromtxt sample_csv_header sample_fit
              (fresh "spearman" 2) (snd (sample_generate (fresh "spearman" 2)))
              example_attributions sample_labels)
    as (es & He & Hall).
  - vm_compute. reflexivity.
  - reflexivity.
  - reflexivity.
  - repeat constructor.
  - exists (snd (sample_generate (fresh "spearman" 2))), es.
    split; [vm_compute; reflexivity|]. split; assumption.
Defined.

(** ** [get_optimal_clustering]: the runs it makes and what it scores *)

Lemma with_k_with_k (n n' : Z) (s : state) : with_k n (with_k n' s) = with_k n s.
Proof. reflexivity. Qed.

Section SelectionBehaviour.

Variable np_genfromtxt : string -> outcome matrix.
Variable csv_header : string -> outcome (list string).
Variable KMedoids_fit :
  Z -> distance_function -> Z -> Q -> matrix -> outcome (list Z * list Z).
Variable distance_matrix : Type.
Variable pairwise_distances : matrix -> distance_function -> outcome distance_matrix.
Variable silhouette_score : distance_matrix -> list Z -> outcome Q.

Abbreviation generate' := (generate np_genfromtxt csv_header KMedoids_fit).
Abbreviation scan_body' :=
  (scan_body np_genfromtxt csv_header KMedoids_fit distance_matrix
             pairwise_distances silhouette_score).
Abbreviation scan' :=
  (scan np_genfromtxt csv_header KMedoids_fit distance_matrix
        pairwise_distances silhouette_score).
Abbreviation get_optimal_clustering' :=
  (get_optimal_clustering np_genfromtxt csv_header KMedoids_fit distance_matrix
                          pairwise_distances silhouette_score).

Abbreviation scored_with' :=
  (scored_with KMedoids_fit distance_matrix pairwise_distances silhouette_score).

Lemma scan_body_k (n_cluster : Z) (silh_list : list (Q * Z))
      (my_func : option distance_function) (s s' : state)
      (r : outcome (list (Q * Z) * option distance_function)) :
  scan_body' n_cluster silh_list my_func s = (r, s') -> k s'.(self) = n_cluster.
Proof.
  rewrite scan_body_unfold.
  destruct (generate' (with_k n_cluster s)) as [r1 s1] eqn:Hgen.
  apply generate_frame in Hgen as (_ & _ & Hk & _). simpl in Hk.
  destruct r1 as [[]|e]; [|intros H; injection H as _ <-; exact Hk].
  destruct (select_my_func _ _) as [f|]; [|intros H; injection H as _ <-; exact Hk].
  destruct (normalized_attributions _) as [na|]; [|intros H; injection H as _ <-; exact Hk].
  destruct (pairwise_distances _ _) as [D|e]; [|intros H; injection H as _ <-; exact Hk].
  destruct (subpopulations _) as [labels|]; [|intros H; injection H as _ <-; exact Hk].
  destruct (silhouette_score _ _) as [sc|e]; intros H; injection H as _ <-; exact Hk.
Qed.

Lemma scan_k (candidates : list Z) (silh_list : list (Q * Z))
      (my_func : option distance_function) (s s' : state)
      (r : outcome (list (Q * Z))) :
  candidates <> [] ->
  scan' candidates silh_list my_func s = (r, s') -> In (k s'.(self)) candidates.
Proof.
  revert silh_list my_func s.
  induction candidates as [|n rest IH]; intros silh_list my_func s Hne Hrun;
    [congruence|].
  simpl in Hrun. apply bind_inv in Hrun as [([l mf] & s1 & Hbody & Hrest)|(e & Hbody & _)].
  - apply scan_body_k in Hbody. destruct rest as [|n' rest'].
    + simpl in Hrest. unfold ret in Hrest. injection Hrest as _ <-. left. congruence.
    + right. eapply IH; [discriminate|exact Hrest].
  - apply scan_body_k in Hbody. left. congruence.
Qed.

Lemma scan_ok_calls (candidates : list Z) (silh_list out : list (Q * Z))
      (my_func : option distance_function) (s s' : state) (a : matrix) :
  np_genfromtxt (attributions_path s.(self)) = Ok a ->
  scan' candidates silh_list my_func s = (Ok out, s') ->
  fit_calls s' = fit_calls s ++ map (fun n => generate_fit n a) candidates.
Proof.
  revert silh_list my_func s.
  induction candidates as [|n rest IH]; intros silh_list my_func s Ha; simpl.
  - unfold ret. intros H. injection H as _ <-. rewrite app_nil_r. reflexivity.
  - intros H. apply bind_ok_inv in H as ([l mf] & s1 & Hbody & Hrest).
    apply scan_body_ok_inv in Hbody as [Hgen _].
    apply generate_ok_inv in Hgen
      as (a' & labels & members & centers & es & Ha' & _ & _ & _ & Es1).
    simpl in Ha'. rewrite Ha in Ha'. injection Ha' as <-.
    apply IH in Hrest; [|rewrite Es1; simpl; exact Ha].
    rewrite Hrest, Es1. simpl. rewrite <- app_assoc. reflexivity.
Qed.

(** X14. A completed automatic selection has run the clusterer once for
    each candidate 2, ..., max(2, max_clusters), in that order, and once
    more for the chosen [k], always on the normalised matrix of the file;
    the stored score table is sorted in ascending order and its last entry
    is the chosen one. *)
Theorem selection_clusterer_runs (max_clusters : Z) (s s' : state)
        (Hrun : get_optimal_clustering' max_clusters s = (Ok tt, s')) :
  exists a scores best,
    np_genfromtxt (attributions_path s.(self)) = Ok a
    /\ silh_scores s'.(self) = Some scores
    /\ StronglySorted tuple_le scores
    /\ last scores = Some best
    /\ fit_calls s'
       = fit_calls s
         ++ map (fun n => generate_fit n a)
                (range 2 (Z.max 2 max_clusters + 1) ++ [snd best]).
Proof.
  apply get_optimal_clustering_ok_inv in Hrun as (l & s1 & best & Hscan & Hlast & Hgen).
  pose proof (scan_ok_inv _ _ _ _ _ _ _ _ _ _ _ _ Hscan) as (Hpath & _).
  apply generate_ok_inv in Hgen
    as (a & labels & members & centers & es & Ha & _ & _ & _ & ->).
  simpl in Ha. rewrite Hpath in Ha.
  apply (scan_ok_calls _ _ _ _ _ _ a Ha) in Hscan.
  exists a, (sort l), best. split; [exact Ha|]. split; [reflexivity|].
  split; [apply (StronglySorted_merge_sort tuple_le)|]. split; [exact Hlast|].
  simpl. rewrite Hscan, map_app, <- app_assoc. reflexivity.
Qed.

(** X15. On an instance configured with "kendall_tau", every score in the
    table of a completed selection is the silhouette of a partition that
    the clusterer computed with the Spearman-squared distance, measured on
    the Kendall-tau distance matrix. *)
Theorem kendall_scores_spearman_partitions (max_clusters : Z) (s s' : state)
        (Hkendall : distance s.(self) = "kendall_tau"%string)
        (Hrun : get_optimal_clustering' max_clusters s = (Ok tt, s')) :
  exists a scores,
    np_genfromtxt (attributions_path s.(self)) = Ok a
    /\ silh_scores s'.(self) = Some scores
    /\ Forall (scored_with' a mergeSortDistance) scores.
Proof.
  apply get_optimal_clustering_ok_inv in Hrun as (l & s1 & best & Hscan & Hlast & Hgen).
  pose proof (scan_ok_inv _ _ _ _ _ _ _ _ _ _ _ _ Hscan) as (Hpath & _).
  apply generate_ok_inv in Hgen
    as (a & labels & members & centers & es & Ha & _ & _ & _ & ->).
  simpl in Ha. rewrite Hpath in Ha.
  apply (scan_ok_trace _ _ _ _ _ _ _ _ _ _ _ _ a mergeSortDistance Ha) in Hscan
    as (_ & scored & -> & _ & Hall);
    [|intros mf; rewrite Hkendall; reflexivity].
  exists a, (sort scored). split; [exact Ha|]. split; [reflexivity|].
  simpl. apply List.Forall_forall. intros p Hp.
  rewrite List.Forall_forall in Hall. apply Hall, sort_In, Hp.
Qed.

(** X16. However automatic selection ends, the instance's [k] has been
    overwritten with a candidate between 2 and max(2, max_clusters): the [k]
    the instance held before is gone, also when the call raises. *)
Theorem selection_overwrites_k (max_clusters : Z) (s s' : state)
        (r : outcome unit)
        (Hrun : get_optimal_clustering' max_clusters s = (r, s')) :
  2 <= k s'.(self) <= Z.max 2 max_clusters.
Proof.
  set (candidates := range 2 (Z.max 2 max_clusters + 1)).
  assert (Hne : candidates <> []).
  { unfold candidates. rewrite range_candidates. discriminate. }
  assert (Hin : In (k s'.(self)) candidates).
  { unfold get_optimal_clustering in Hrun. fold candidates in Hrun.
    apply bind_inv in Hrun as [(l & s1 & Hscan & Hrest)|(e & Hscan & _)];
      [|eapply scan_k; [exact Hne|exact Hscan]].
    pose proof (scan_k _ _ _ _ _ _ Hne Hscan) as Hk1.
    apply scan_ok_inv in Hscan as (_ & scored & El & Hks). simpl in El. subst l.
    unfold bind, assign, read_some, raise in Hrest. simpl in Hrest.
    destruct (last (sort scored)) as [best|] eqn:Hlast.
    - apply generate_frame in Hrest as (_ & _ & Hk & _). simpl in Hk.
      rewrite Hk, <- Hks. apply in_map.
      apply sort_In. apply list_elem_of_In. eapply last_Some_elem_of. exact Hlast.
    - injection Hrest as _ <-. exact Hk1. }
  apply list_elem_of_In in Hin. unfold candidates, range in Hin.
  apply elem_of_seqZ in Hin. lia.
Qed.

(** X17. Automatic selection does not depend on the [k] the instance was
    given: it assigns the first candidate before anything reads [k]. *)
Theorem selection_ignores_initial_k (max_clusters n : Z) (s : state) :
  get_optimal_clustering' max_clusters (with_k n s)
  = get_optimal_clustering' max_clusters s.
Proof.
  assert (Hfirst : scan_body' 2 [] None (with_k n s) = scan_body' 2 [] None s).
  { rewrite !scan_body_unfold, with_k_with_k. reflexivity. }
  unfold get_optimal_clustering. rewrite range_candidates. simpl.
  unfold bind. rewrite Hfirst. reflexivity.
Qed.

End SelectionBehaviour.

Lemma selection_clusterer_runs_witness :
  exists s',
    sample_get_optimal_clustering sample_silhouette_score 3 (fresh "spearman" 2)
    = (Ok tt, s')
    /\ map fit_k (fit_calls s') = [2; 3; 2].
Proof.
  eexists. split; [vm_compute; reflexivity|].
  destruct (selection_clusterer_runs
              sample_genfromtxt sample_csv_header sample_fit
              sample_distance_matrix sample_pairwise_distances sample_silhouette_score
              3 (fresh "spearman" 2) _ ltac:(vm_compute; reflexivity))
    as (a & scores & best & _ & Hs & _ & Hlast & Hcalls).
  rewrite Hcalls. vm_compute in Hs. injection Hs as <-.
  vm_compute in Hlast. injection Hlast as <-. reflexivity.
Defined.

Lemma kendall_scores_spearman_partitions_witness :
  exists s' scores,
    distance (fresh "kendall_tau" 2).(self) = "kendall_tau"%string
    /\ sample_get_optimal_clustering sample_silhouette_score 3 (fresh "kendall_tau" 2)
       = (Ok tt, s')
    /\ silh_scores s'.(self) = Some scores
    /\ Forall (scored_with sample_fit sample_distance_matrix
                 sample_pairwise_distances sample_silhouette_score
                 example_attributions mergeSortDistance) scores.
Proof.
  eexists. 
  destruct (kendall_scores_spearman_partitions
              sample_genfromtxt sample_csv_header sample_fit
              sample_distance_matrix sample_pairwise_distances sample_silhouette_score
              3 (fresh "kendall_tau" 2) _ eq_refl ltac:(vm_compute; reflexivity))
    as (a & scores & Ha & Hs & Hall).
  exists scores. split; [reflexivity|]. split; [vm_compute; reflexivity|].
  split; [exact Hs|].
  vm_compute in Ha. injection Ha as <-. exact Hall.
Defined.

Lemma selection_overwrites_k_witness :
  fst (sample_get_optimal_clustering sample_silhouette_score 3 (fresh "cosine" 9))
  = Raise (UnboundLocalError "my_func")
  /\ 2 <= k (snd (sample_get_optimal_clustering sample_silhouette_score 3
                    (fresh "cosine" 9))).(self) <= Z.max 2 3.
Proof.
  split; [reflexivity|].
  apply (selection_overwrites_k
           sample_genfromtxt sample_csv_header sample_fit
           sample_distance_matrix sample_pairwise_distances sample_silhouette_score
           3 (fresh "cosine" 9) _
           (fst (sample_get_optimal_clustering sample_silhouette_score 3
                   (fresh "cosine" 9)))).
  vm_compute. reflexivity.
Defined.

(** ** [plot]: what is drawn *)

Lemma insert_by_weight_Permutation (x : string * float) (l : list (string * float)) :
  Permutation (insert_by_weight x l) (x :: l).
Proof.
  induction l as [|y l IH]; simpl; [reflexivity|].
  destruct (flt (snd y) (snd x)); [|reflexivity].
  rewrite IH. apply perm_swap.
Qed.

Lemma sorted_by_weight_Permutation (e : list (string * float)) :
  Permutation (sorted_by_weight e) e.
Proof.
  induction e as [|x e IH]; simpl; [reflexivity|].
  rewrite insert_by_weight_Permutation, IH. reflexivity.
Qed.

Lemma flt_fin_false (a b : Q) : flt (Fin a) (Fin b) = false <-> (b <= a)%Q.
Proof.
  simpl. destruct (Qcompare a b) eqn:Hc.
  - apply Qeq_alt in Hc. split; [intros _; rewrite Hc; apply Qle_refl|reflexivity].
  - apply Qlt_alt in Hc. split; [discriminate|].
    intros H. exfalso. exact (Qlt_not_le _ _ Hc H).
  - apply Qgt_alt in Hc. split; [intros _; apply Qlt_le_weak; exact Hc|reflexivity].
Qed.

Lemma weight_le_fin_trans (x y z : string * float) :
  is_finite (snd x) = true -> is_finite (snd y) = true -> is_finite (snd z) = true ->
  weight_le x y -> weight_le y z -> weight_le x z.
Proof.
  unfold weight_le. destruct x as [lx [a| |]], y as [ly [b| |]], z as [lz [c| |]];
    simpl; try discriminate. intros _ _ _.
  change (flt (Fin b) (Fin a) = false -> flt (Fin c) (Fin b) = false
          -> flt (Fin c) (Fin a) = false).
  rewrite !flt_fin_false. intros H1 H2. exact (Qle_trans _ _ _ H1 H2).
Qed.

Lemma weight_le_fin_total (x y : string * float) :
  is_finite (snd x) = true -> is_finite (snd y) = true ->
  flt (snd y) (snd x) = true -> weight_le y x.
Proof.
  unfold weight_le. destruct x as [lx [a| |]], y as [ly [b| |]];
    simpl; try discriminate. intros _ _.
  destruct (Qcompare b a) eqn:Hc; try discriminate. intros _.
  apply Qlt_alt in Hc.
  destruct (Qcompare a b) eqn:Hc'; try reflexivity.
  apply Qlt_alt in Hc'. exfalso. exact (Qlt_irrefl _ (Qlt_trans _ _ _ Hc Hc')).
Qed.

Lemma insert_by_weight_sorted (x : string * float) (l : list (string * float)) :
  is_finite (snd x) = true -> finite_weights l ->
  StronglySorted weight_le l -> StronglySorted weight_le (insert_by_weight x l).
Proof.
  intros Hx Hfin Hs. induction Hs as [|y l Hs IH Hall]; simpl.
  - constructor; constructor.
  - apply Forall_cons in Hfin as [Hy Hfin].
    destruct (flt (snd y) (snd x)) eqn:Hlt.
    + constructor; [apply IH; exact Hfin|].
      rewrite (insert_by_weight_Permutation x l).
      constructor; [apply weight_le_fin_total; assumption|exact Hall].
    + constructor; [constructor; assumption|].
      constructor; [exact Hlt|].
      rewrite List.Forall_forall in Hall |- *. intros z Hz.
      apply (weight_le_fin_trans x y z); try assumption.
      * rewrite Forall_forall in Hfin. apply Hfin, list_elem_of_In, Hz.
      * apply Hall, Hz.
Qed.

Lemma sorted_by_weight_sorted (e : list (string * float)) :
  finite_weights e -> StronglySorted weight_le (sorted_by_weight e).
Proof.
  intros Hfin. induction Hfin as [|x e Hx Hfin IH]; simpl; [constructor|].
  apply insert_by_weight_sorted; [exact Hx| |exact IH].
  unfold finite_weights. rewrite sorted_by_weight_Permutation. exact Hfin.
Qed.

Lemma slice_last_positive {A} (n : Z) (l : list A) :
  0 < n ->
  length (slice_last n l) = Nat.min (Z.to_nat n) (length l)
  /\ take (length l - Nat.min (Z.to_nat n) (length l)) l ++ slice_last n l = l.
Proof.
  intros Hn. unfold slice_last.
  assert (Hb : (0 <? n) = true) by (apply Z.ltb_lt; exact Hn). rewrite Hb.
  assert (E : Z.to_nat (Z.max (Z.of_nat (length l) - n) 0)
              = (length l - Nat.min (Z.to_nat n) (length l))%nat) by lia.
  rewrite E. split; [rewrite length_drop; lia|apply take_drop].
Qed.

Section PlotBehaviour.

Variable np_genfromtxt : string -> outcome matrix.
Variable csv_header : string -> outcome (list string).
Variable KMedoids_fit :
  Z -> distance_function -> Z -> Q -> matrix -> outcome (list Z * list Z).
Variable render : chart -> outcome unit.

Abbreviation plot' := (plot np_genfromtxt csv_header KMedoids_fit render).
Abbreviation plot_loop' := (plot_loop render).

(** When the library accepts every chart, the loop hands over one chart
    per explanation, numbered from [idx]. *)
Lemma plot_loop_all (num_features : Z) (output_path_base : option string)
      (display : bool) (idx : nat) (es : list explanation) (charts : list chart) :
  (forall c, render c = Ok tt) ->
  plot_loop' num_features output_path_base display idx es charts
  = (Ok tt, charts ++ imap (fun i e => chart_of num_features output_path_base
                                                display (idx + i) e) es).
Proof.
  intros Hrender. revert idx charts.
  induction es as [|e es IH]; intros idx charts; simpl.
  - rewrite app_nil_r. reflexivity.
  - rewrite Hrender, IH, <- app_assoc. simpl. rewrite Nat.add_0_r.
    do 3 f_equal. apply imap_ext. intros i x _. simpl. f_equal. lia.
Qed.

Lemma plot_all (num_features : Z) (output_path_base : option string)
      (display : bool) (s : state) (es : list explanation) :
  (forall c, render c = Ok tt) ->
  explanations s.(self) = Some es ->
  plot' num_features output_path_base display s
  = ((Ok tt, imap (chart_of num_features output_path_base display) es), s).
Proof.
  intros Hrender He. unfold plot. simpl. rewrite He.
  rewrite plot_loop_all by exact Hrender. reflexivity.
Qed.

(** X19. For a positive [num_features] and a library that accepts every
    chart, [plot] draws one chart per explanation, in order; the bars of a
    chart are [min(num_features, n)] of the [n] features of its explanation
    and, when the weights are numbers, they are in ascending order of
    weight and no feature left out weighs more than one that is drawn. *)
Theorem plot_draws_top_features (num_features : Z)
        (output_path_base : option string) (display : bool) (s : state)
        (es : list explanation)
        (Hrender : forall c, render c = Ok tt)
        (Hes : explanations s.(self) = Some es)
        (Hpos : 0 < num_features) :
  exists charts,
    fst (plot' num_features output_path_base display s) = (Ok tt, charts)
    /\ Forall2 (fun e c =>
                  exists dropped,
                    Permutation (dropped ++ chart_bars c) e
                    /\ length (chart_bars c)
                       = Nat.min (Z.to_nat num_features) (length e)
                    /\ (finite_weights e ->
                        StronglySorted weight_le (chart_bars c)
                        /\ Forall (fun d => Forall (weight_le d) (chart_bars c))
                                  dropped))
               es charts.
Proof.
  rewrite (plot_all _ _ _ _ es Hrender Hes). eexists. split; [reflexivity|].
  generalize 0%nat as idx.
  assert (Hgen : forall f : nat -> nat,
             Forall2 (fun e c =>
                  exists dropped,
                    Permutation (dropped ++ chart_bars c) e
                    /\ length (chart_bars c)
                       = Nat.min (Z.to_nat num_features) (length e)
                    /\ (finite_weights e ->
                        StronglySorted weight_le (chart_bars c)
                        /\ Forall (fun d => Forall (weight_le d) (chart_bars c))
                                  dropped))
               es (imap (fun i => chart_of num_features output_path_base display (f i)) es)).
  { clear Hes. induction es as [|e rest IH]; intros f; simpl; constructor.
    - clear IH. simpl.
      destruct (slice_last_positive num_features (sorted_by_weight e) Hpos)
        as [Hlen Hsplit].
      pose proof (sorted_by_weight_Permutation e) as Hperm.
      rewrite (Permutation_length Hperm) in Hlen.
      eexists. split; [rewrite Hsplit; exact Hperm|]. split; [exact Hlen|].
      intros Hfin. pose proof (sorted_by_weight_sorted e Hfin) as Hsorted.
      rewrite <- Hsplit in Hsorted.
      apply StronglySorted_app in Hsorted as (Hcross & _ & Hbars).
      split; [exact Hbars|].
      apply List.Forall_forall. intros d Hd.
      apply List.Forall_forall. intros b Hb.
      apply Hcross; apply list_elem_of_In; assumption.
    - apply (IH (f ∘ S)). }
  intros _. apply (Hgen (fun i => i)).
Qed.

End PlotBehaviour.

Lemma string_length_app (s1 s2 : string) :
  String.length (s1 +:+ s2) = (String.length s1 + String.length s2)%nat.
Proof. induction s1 as [|c s1 IH]; simpl; [reflexivity|]. rewrite IH. reflexivity. Qed.

Lemma string_app_inj_r (s1 s2 t : string) : s1 +:+ t = s2 +:+ t -> s1 = s2.
Proof.
  revert s2. induction s1 as [|c s1 IH]; intros [|c' s2] H; simpl in H.
  - reflexivity.
  - apply (f_equal String.length) in H.
    rewrite !string_length_app in H. simpl in H. lia.
  - apply (f_equal String.length) in H.
    rewrite !string_length_app in H. simpl in H. lia.
  - injection H as -> H. f_equal. apply IH. exact H.
Qed.

Lemma output_path_inj (base : string) (i j : nat) :
  output_path base i = output_path base j -> i = j.
Proof.
  unfold output_path. intros H.
  apply (inj (String.append base)) in H.
  apply (inj (String.append "_explanation_")) in H.
  apply string_app_inj_r in H. apply (inj pretty) in H. congruence.
Qed.

Section PlotFiles.

Variable np_genfromtxt : string -> outcome matrix.
Variable csv_header : string -> outcome (list string).
Variable KMedoids_fit :
  Z -> distance_function -> Z -> Q -> matrix -> outcome (list Z * list Z).
Variable render : chart -> outcome unit.

Abbreviation plot' := (plot np_genfromtxt csv_header KMedoids_fit render).

(** X21. With a non-empty [output_path_base] and a library that accepts
    every chart, the chart of the explanation at position [i] is saved to
    [<base>_explanation_<i+1>.png]; no two charts are saved to the same
    file.  With [None] or the empty string nothing is saved. *)
Theorem plot_saves_each_chart_apart (num_features : Z) (display : bool)
        (s : state) (es : list explanation)
        (Hrender : forall c, render c = Ok tt)
        (Hes : explanations s.(self) = Some es) :
  (forall base, base <> ""%string ->
     exists charts,
       fst (plot' num_features (Some base) display s) = (Ok tt, charts)
       /\ map chart_saved charts
          = map (fun i => Some (output_path base i)) (seq 0 (length es))
       /\ NoDup (map chart_saved charts))
  /\ (forall base, base = None \/ base = Some ""%string ->
       exists charts,
         fst (plot' num_features base display s) = (Ok tt, charts)
         /\ length charts = length es
         /\ Forall (fun c => chart_saved c = None) charts).
Proof.
  split.
  - intros base Hbase. rewrite (plot_all _ _ _ _ _ _ _ _ es Hrender Hes).
    eexists. split; [reflexivity|].
    assert (Hsaved : map chart_saved
                       (imap (chart_of num_features (Some base) display) es)
                     = map (fun i => Some (output_path base i)) (seq 0 (length es))).
    { change (map chart_saved ?l) with (chart_saved <$> l).
      rewrite fmap_imap. rewrite <- (imap_seq_0 es).
      apply imap_ext. intros i e _. simpl.
      destruct (String.eqb_spec base ""); [contradiction|reflexivity]. }
    split; [exact Hsaved|]. rewrite Hsaved.
    assert (Hinj : Inj (=) (=) (fun i : nat => Some (output_path base i))).
    { intros i j Hij. injection Hij as Hij. eapply output_path_inj. exact Hij. }
    apply (NoDup_fmap_2 _). apply NoDup_seq.
  - intros base Hbase. rewrite (plot_all _ _ _ _ _ _ _ _ es Hrender Hes).
    eexists. split; [reflexivity|]. split; [apply length_imap|].
    apply Forall_forall. intros c Hc.
    apply list_elem_of_lookup in Hc as [i Hc].
    apply list_lookup_imap_Some in Hc as (e & _ & ->).
    destruct Hbase as [->| ->]; reflexivity.
Qed.

End PlotFiles.

Lemma plot_draws_top_features_witness :
  exists charts,
    fst (sample_plot 1 None true generated) = (Ok tt, charts)
    /\ map chart_bars charts
       = [[("weight"%string, F 8 10)]; [("height"%string, F 8 10)]].
Proof.
  destruct (plot_draws_top_features sample_genfromtxt sample_csv_header sample_fit
              sample_render 1 None true generated
              [[("height"%string, F 2 10); ("weight"%string, F 8 10)];
               [("height"%string, F 8 10); ("weight"%string, F 2 10)]])
    as (charts & Hrun & _).
  - reflexivity.
  - reflexivity.
  - lia.
  - exists charts. split; [exact Hrun|].
    vm_compute in Hrun. injection Hrun as <-. reflexivity.
Defined.

Lemma plot_saves_each_chart_apart_witness :
  exists charts,
    fst (sample_plot 5 (Some "out"%string) false generated) = (Ok tt, charts)
    /\ map chart_saved charts
       = [Some "out_explanation_1.png"%string; Some "out_explanation_2.png"%string].
Proof.
  destruct (proj1 (plot_saves_each_chart_apart sample_genfromtxt sample_csv_header
                     sample_fit sample_render 5 false generated
                     [[("height"%string, F 2 10); ("weight"%string, F 8 10)];
                      [("height"%string, F 8 10); ("weight"%string, F 2 10)]]
                     (fun c => eq_refl) eq_refl) "out"%string)
    as (charts & Hrun & Hsaved & _).
  - discriminate.
  - exists charts. split; [exact Hrun|]. rewrite Hsaved. reflexivity.
Defined.
